(** * Keyword search engine of the channel-parsing bot

    Shallow embedding of the search core of [src/parser/Парсер.py]:
    the fuzzy word matcher, the sentence extractor, the file cache, the
    channel searcher and the result formatter, with the properties the
    specification states about them.

    Python strings are sequences of Unicode code points; they are modelled
    as lists of code points ([N]), so that [len], slicing and comparison
    count characters exactly as Python does.  Python integers are [Z]
    (or [nat] where the value is a length or a count). *)

From Stdlib Require Import ZArith NArith QArith Lia List Bool Ascii String.
From Stdlib Require Import DecimalString DecimalPos DecimalZ Lqa.
From stdpp Require Import base decidable option list countable gmap.

Set Warnings "-register-all".

Local Open Scope nat_scope.
Local Open Scope list_scope.

(** ** Strings *)

Definition char : Type := N.
Definition str : Type := list char.

(** Reads a literal of this file (UTF-8 bytes) as the sequence of its code
    points, so that constants can be written as in the source. *)
Fixpoint utf8_decode (s : string) (need : nat) (acc : N) : str :=
  match s with
  | EmptyString => []
  | String a s' =>
      let b := N_of_ascii a in
      if (b <? 128)%N then b :: utf8_decode s' 0 0%N
      else if (b <? 192)%N then
        let acc' := (acc * 64 + (b - 128))%N in
        match need with
        | 0 => utf8_decode s' 0 0%N
        | 1 => acc' :: utf8_decode s' 0 0%N
        | S n => utf8_decode s' n acc'
        end
      else if (b <? 224)%N then utf8_decode s' 1 (b - 192)%N
      else if (b <? 240)%N then utf8_decode s' 2 (b - 224)%N
      else utf8_decode s' 3 (b - 240)%N
  end.

Definition u (s : string) : str := utf8_decode s 0 0%N.

(** [a == b] on strings. *)
Definition str_eqb (a b : str) : bool := bool_decide (a = b).

(** [s.startswith(p)]. *)
Fixpoint startswith (s p : str) {struct p} : bool :=
  match p, s with
  | [], _ => true
  | _ :: _, [] => false
  | c :: p', d :: s' => (c =? d)%N && startswith s' p'
  end.

(** [k in w]: [k] occurs in [w] as a contiguous substring. *)
Fixpoint str_contains (w k : str) : bool :=
  startswith w k ||
  match w with
  | [] => false
  | _ :: w' => str_contains w' k
  end.

(** [s.endswith(e)]. *)
Definition endswith (s e : str) : bool :=
  str_eqb (drop (length s - length e) s) e.

(** [s[:-n]] for [n = len(ending)]; Python reads [s[:-0]] as [s[:0]]. *)
Definition slice_to_minus (s : str) (n : nat) : str :=
  if n =? 0 then [] else take (length s - n) s.

(** [enumerate(l, start)]. *)
Definition enumerate {A} (start : nat) (l : list A) : list (nat * A) :=
  combine (seq start (length l)) l.

(** ** Fuzzy matcher: [fuzzy_match_word] *)

(** The closed list of endings, as written in the source (duplicates
    included). *)
Definition endings : list str :=
  map u ["а"; "ы"; "ов"; "ей"; "ам"; "ами"; "ах"; "ом"; "ого"; "ому"; "им";
         "ем"; "ого"; "ему"; "ими"; "ими"; "ой"; "ую"; "ю"; "ие"; "их"; "им";
         "ыми"; "ая"; "яя"; "ое"; "ее"; "ие"; "ей"; "ую"; "юю"; "ие"; "их";
         "им"]%string.

(** Python's [min(a, b, c)]. *)
Definition min3 (a b c : nat) : nat := Nat.min a (Nat.min b c).

(** Body of the inner [for j, c2 in enumerate(s2)] loop.  Both rows are
    indexed inside their bounds (see [levenshtein_rows_length]), so the
    default of [nth] is never returned. *)
Definition lev_inner_step (c1 : char) (previous_row current_row : list nat)
    (jc : nat * char) : list nat :=
  let '(j, c2) := jc in
  let insertions := nth (j + 1) previous_row 0 + 1 in
  let deletions := nth j current_row 0 + 1 in
  let substitutions := nth j previous_row 0 + (if (c1 =? c2)%N then 0 else 1) in
  current_row ++ [min3 insertions deletions substitutions].

(** Body of the outer [for i, c1 in enumerate(s1)] loop: returns the new
    [previous_row]. *)
Definition lev_outer_step (s2 : str) (previous_row : list nat)
    (ic : nat * char) : list nat :=
  let '(i, c1) := ic in
  fold_left (lev_inner_step c1 previous_row) (enumerate 0 s2) [i + 1].

Definition levenshtein_rows (s1 s2 : str) : list nat :=
  fold_left (lev_outer_step s2) (enumerate 0 s1) (seq 0 (length s2 + 1)).

(** The function after its first test, that is for [len(s1) >= len(s2)]. *)
Definition levenshtein_body (s1 s2 : str) : nat :=
  if length s2 =? 0 then length s1
  else List.last (levenshtein_rows s1 s2) 0.

(** [levenshtein_distance]: the recursive call swaps the arguments once,
    after which the first test is false. *)
Definition levenshtein_distance (s1 s2 : str) : nat :=
  if length s1 <? length s2 then levenshtein_body s2 s1
  else levenshtein_body s1 s2.

(** The [for ending in endings] loop with its two early returns. *)
Fixpoint endings_loop (word_lower keyword_lower : str) (es : list str) : bool :=
  match es with
  | [] => false
  | ending :: es' =>
      if str_eqb word_lower (keyword_lower ++ ending) then true
      else if endswith keyword_lower ending
              && str_eqb word_lower (slice_to_minus keyword_lower (length ending))
      then true
      else endings_loop word_lower keyword_lower es'
  end.

Section Matcher.

(** Python's [str.lower], a function of the Unicode tables of the
    interpreter; everything below holds for any such function. *)
Variable lower : str -> str.

Definition fuzzy_match_word (word keyword : str) : bool :=
  let word_lower := lower word in
  let keyword_lower := lower keyword in
  if str_eqb word_lower keyword_lower then true
  else if str_contains word_lower keyword_lower then true
  else if endings_loop word_lower keyword_lower endings then true
  else if (length keyword <=? 6) && (length word <=? 8) then
    let distance := levenshtein_distance word_lower keyword_lower in
    if distance <=? 2 then true else false
  else false.

End Matcher.

(** Lower-casing of the Basic Latin and Russian letters, where it agrees
    with [str.lower]; used for the worked examples. *)
Definition lower_char (c : char) : char :=
  if ((65 <=? c) && (c <=? 90))%N then (c + 32)%N
  else if ((1040 <=? c) && (c <=? 1071))%N then (c + 32)%N
  else if ((1024 <=? c) && (c <=? 1039))%N then (c + 80)%N
  else c.

Definition lower_basic (s : str) : str := map lower_char s.

(** ** Whitespace, splitting and joining *)

(** The characters for which [str.isspace] holds; [str.strip],
    [str.split] and the pattern [\s] all use this one class. *)
Definition isspace (c : char) : bool :=
  existsb (N.eqb c)
    [9; 10; 11; 12; 13; 28; 29; 30; 31; 32; 133; 160; 5760; 8192; 8193; 8194;
     8195; 8196; 8197; 8198; 8199; 8200; 8201; 8202; 8232; 8233; 8239; 8287;
     12288]%N.

Fixpoint lstrip (s : str) : str :=
  match s with
  | [] => []
  | c :: s' => if isspace c then lstrip s' else s
  end.

Definition rstrip (s : str) : str := rev (lstrip (rev s)).

(** [s.strip()]. *)
Definition strip (s : str) : str := rstrip (lstrip s).

(** The maximal runs of characters satisfying [p], in order; [cur] is the
    run being read. *)
Fixpoint runs (p : char -> bool) (cur : str) (s : str) : list str :=
  match s with
  | [] => match cur with [] => [] | _ => [cur] end
  | c :: s' =>
      if p c then runs p (cur ++ [c]) s'
      else match cur with
           | [] => runs p [] s'
           | _ => cur :: runs p [] s'
           end
  end.

(** [s.split()]: the maximal runs of non-whitespace characters. *)
Definition split_ws (s : str) : list str := runs (fun c => negb (isspace c)) [] s.

(** [sep.join(l)]. *)
Fixpoint join (sep : str) (l : list str) : str :=
  match l with
  | [] => []
  | [x] => x
  | x :: l' => x ++ sep ++ join sep l'
  end.

(** One of [.], [!], [?]. *)
Definition is_sentence_end (c : char) : bool :=
  ((c =? 46) || (c =? 33) || (c =? 63))%N.

(** [re.split(r'(?<=[.!?])\s+', s)], scanning left to right.  A match
    starts at a whitespace character that follows a sentence end and takes
    the whole run of whitespace; [skipping] says that the scan is inside a
    match, [after_end] that the previous character is a sentence end, and
    [cur] is the piece being read. *)
Fixpoint re_split_sentences_from (skipping after_end : bool) (cur : str)
    (s : str) : list str :=
  match s with
  | [] => [cur]
  | c :: s' =>
      if skipping && isspace c then re_split_sentences_from true false cur s'
      else if after_end && isspace c then
        cur :: re_split_sentences_from true false [] s'
      else re_split_sentences_from false (is_sentence_end c) (cur ++ [c]) s'
  end.

Definition re_split_sentences (s : str) : list str :=
  re_split_sentences_from false false [] s.

(** Truth value of a string or a list: non-empty. *)
Definition nonempty {A} (l : list A) : bool :=
  match l with [] => false | _ => true end.

(** ** Sentence extractor: [extract_relevant_sentences] *)

Section Extractor.

Variable lower : str -> str.

(** The class [\w] of the pattern language: the alphanumeric characters
    of the Unicode tables and the underscore. *)
Variable is_word : char -> bool.

(** [re.findall(r'\b\w+\b', s)]: the maximal runs of word characters. *)
Definition findall_words (s : str) : list str := runs is_word [] s.

(** The two nested loops over words and keywords, left at the first
    match. *)
Definition has_match (words keywords : list str) : bool :=
  existsb (fun word => existsb (fun keyword => fuzzy_match_word lower word keyword)
                         keywords) words.

(** Body of the loop over the sentences; [relevant_sentences] is the
    list being built. *)
Definition extract_step (keywords : list str) (relevant_sentences : list str)
    (sentence : str) : list str :=
  let sentence_lower := strip (lower sentence) in
  if negb (nonempty sentence_lower) then relevant_sentences
  else
    let words := findall_words sentence_lower in
    if has_match words keywords then
      let clean_sentence := join (u " ") (split_ws sentence) in
      if nonempty clean_sentence && (10 <? length clean_sentence)
      then relevant_sentences ++ [clean_sentence]
      else relevant_sentences
    else relevant_sentences.

Definition extract_relevant_sentences (text : str) (keywords : list str)
    : list str :=
  if negb (nonempty text) || negb (nonempty keywords) then []
  else
    let sentences := re_split_sentences (strip text) in
    fold_left (extract_step keywords) sentences [].

End Extractor.

(** Word characters among the Basic Latin and Russian ones, where the
    class agrees with [\w]; used for the worked examples. *)
Definition is_word_basic (c : char) : bool :=
  ((48 <=? c) && (c <=? 57) || (65 <=? c) && (c <=? 90) || (c =? 95)
   || (97 <=? c) && (c <=? 122) || (1024 <=? c) && (c <=? 1119))%N.

(** ** Data model *)

Record SearchResult := mkSearchResult {
  channel : str;
  message_id : Z;
  date : str;
  snippet : str;
  link : str
}.

(** What the channel-reading client hands out: an entity with its optional
    [username] and [title] attributes, and messages with their [id], their
    [message] text and their [date]; the date is carried in the form
    [strftime("%d.%m.%y %H:%M")] gives it, and is absent on a message
    without one. *)
Record entity := mkEntity {
  username : option str;
  title : option str
}.

Record message := mkMessage {
  id : Z;
  message_text : option str;
  message_date : option str
}.

Inductive exn :=
  | RuntimeError (msg : str)
  | ConnectionError
  | RPCError
  | ValueError
  | AttributeError.

Inductive outcome (A : Type) :=
  | Ok (a : A)
  | Raise (e : exn).
Arguments Ok {A} a.
Arguments Raise {A} e.

(** Answer of [get_entity]: the entity, an [RPCError], or another error
    (an unknown user name is reported with [ValueError]). *)
Inductive lookup_result :=
  | Found (e : entity)
  | LookupRPCError
  | LookupValueError.

(** The client as the searcher sees it.  [iter_messages] lists the messages
    of an entity newest first; a call with [limit=n] yields the first [n]. *)
Record client := mkClient {
  is_connected : bool;
  connect_raises : bool;
  is_user_authorized : bool;
  get_entity : str -> lookup_result;
  iter_messages : entity -> list message
}.

(** The module globals [TELETHON_AVAILABLE] and [telethon_client]. *)
Record globals := mkGlobals {
  TELETHON_AVAILABLE : bool;
  telethon_client : option client
}.

(** Calls made on the client, in order. *)
Inductive event :=
  | GetEntity (channel : str)
  | IterMessages (e : entity) (limit : Z)
  | NextMessage (message_id : Z).

(** Decimal text of an integer, as [str(i)] and the f-strings give it. *)
Definition str_of_Z (z : Z) : str :=
  map N_of_ascii (list_ascii_of_string (NilZero.string_of_int (Z.to_int z))).

Definition len {A} (l : list A) : Z := Z.of_nat (length l).

(** ** Connection check: [ensure_telethon_connected]

    The source returns nothing and the searcher then uses the global client;
    here the checked client is handed back.  A client that is not connected
    is connected first, which may raise. *)

Definition ensure_telethon_connected (g : globals) : outcome client :=
  if negb (TELETHON_AVAILABLE g) then
    Raise (RuntimeError (u "Telethon не доступен. Установите: pip install telethon"))
  else
    match telethon_client g with
    | None => Raise (RuntimeError (u "Telethon client не инициализирован"))
    | Some cl =>
        if negb (is_connected cl) && connect_raises cl then Raise ConnectionError
        else if negb (is_user_authorized cl) then
          Raise (RuntimeError (u "Telethon client не авторизован. Запустите скрипт интерактивно для авторизации или предоставьте TG_SESSION_STRING."))
        else Ok cl
    end.

(** ** Search cache: [load_cached_results], [save_cached_results] *)

(** Values of [json.load] and [json.dump]; an object is a dictionary. *)
Inductive json :=
  | JNull
  | JBool (b : bool)
  | JInt (z : Z)
  | JFloat (q : Q)
  | JStr (s : str)
  | JArr (items : list json)
  | JObj (fields : gmap str json).

(** A file of the cache directory: either [json.load] reads a value from
    it, or reading it raises.  [json.load] gives back the value written by
    a [json.dump] that ran to its end; the disk is taken to work (it is
    not full, the directory can be written). *)
Inductive file :=
  | Unreadable
  | Holds (data : json).

(** The cache directory, from cache key to the file [<key>.json]. *)
Abbreviation cache_dir := (gmap str file).

(** Clock readings of [time.time()], in seconds. *)
Definition CACHE_TTL : Q := 3600.

(** A number read from a JSON value, where Python has one ([True] and
    [False] count as 1 and 0). *)
Definition json_number (j : json) : option Q :=
  match j with
  | JInt z => Some (inject_Z z)
  | JFloat q => Some q
  | JBool b => Some (if b then 1 else 0)%Q
  | _ => None
  end.

(** The dataclass constructor called with the entries of [item] as keyword
    arguments: the item has to be a dictionary with exactly the five field
    names.  The fields are read at the types the dataclass
    declares; a record with a field of another type has no counterpart in
    [SearchResult] and is treated as unreadable. *)
Definition SearchResult_of_item (item : json) : option SearchResult :=
  match item with
  | JObj d =>
      if size d =? 5 then
        match d !! u "channel", d !! u "message_id", d !! u "date",
              d !! u "snippet", d !! u "link" with
        | Some (JStr c), Some (JInt i), Some (JStr dt), Some (JStr s), Some (JStr l) =>
            Some (mkSearchResult c i dt s l)
        | _, _, _, _, _ => None
        end
      else None
  | _ => None
  end.

(** The dictionary written for one result. *)
Definition item_of_SearchResult (result : SearchResult) : json :=
  JObj (<[u "channel" := JStr (channel result)]>
       (<[u "message_id" := JInt (message_id result)]>
       (<[u "date" := JStr (date result)]>
       (<[u "snippet" := JStr (snippet result)]>
       (<[u "link" := JStr (link result)]> ∅))))).

(** The loop [for item in data['results']]; an empty string or dictionary
    is iterated without a step, anything else that is not a list raises. *)
Definition results_of_json (j : json) : option (list SearchResult) :=
  match j with
  | JArr items => mapM SearchResult_of_item items
  | JStr [] => Some []
  | JObj d => if size d =? 0 then Some [] else None
  | _ => None
  end.

(** [a <= b] on strings, as Python compares [str]: by code points, a
    proper prefix first. *)
Fixpoint str_leb (a b : str) : bool :=
  match a, b with
  | [], _ => true
  | _ :: _, [] => false
  | c :: a', d :: b' => (c <? d)%N || ((c =? d)%N && str_leb a' b')
  end.

Fixpoint insert_sorted (x : str) (l : list str) : list str :=
  match l with
  | [] => [x]
  | y :: l' => if str_leb x y then x :: l else y :: insert_sorted x l'
  end.

(** [sorted] on a list of strings. *)
Definition sorted (l : list str) : list str := fold_right insert_sorted [] l.

(** [get_cache_key].  [digest] stands for what follows the two calls of
    [sorted]: the text the f-string makes of the sorted channels, the
    sorted keywords and the limit, and its MD5 digest in hexadecimal. *)
Definition get_cache_key (digest : list str -> list str -> Z -> str)
    (channels keywords : list str) (limit : Z) : str :=
  let sorted_channels := sorted channels in
  let sorted_keywords := sorted keywords in
  digest sorted_channels sorted_keywords limit.

(** [load_cached_results], with the clock reading [now]; returns the
    answer and the cache directory it leaves.  Every exception of the
    [try] block ends in [None]. *)
Definition load_cached_results (now : Q) (cache_key : str) (cache : cache_dir)
    : option (list SearchResult) * cache_dir :=
  match cache !! cache_key with
  | None => (None, cache)
  | Some Unreadable => (None, cache)
  | Some (Holds data) =>
      match data with
      | JObj d =>
          match d !! u "timestamp" ≫= json_number with
          | None => (None, cache)
          | Some timestamp =>
              if negb (Qle_bool (now - timestamp) CACHE_TTL) then
                (None, delete cache_key cache)
              else
                match d !! u "results" ≫= results_of_json with
                | None => (None, cache)
                | Some results => (Some results, cache)
                end
          end
      | _ => (None, cache)
      end
  end.

(** The file is opened with [encoding='utf-8'] and the record is dumped
    with [ensure_ascii=False], so the strings are written as they are.
    UTF-8 has no encoding for a surrogate (U+D800 to U+DFFF): a string
    that holds one makes the write raise [UnicodeEncodeError]. *)
Definition is_surrogate (c : char) : bool :=
  ((55296 <=? c) && (c <=? 57343))%N.

Definition encodable (s : str) : bool :=
  forallb (fun c => negb (is_surrogate c)) s.

(** The strings of one result that [json.dump] writes; [message_id] is an
    integer. *)
Definition encodable_result (result : SearchResult) : bool :=
  encodable (channel result) && encodable (date result)
  && encodable (snippet result) && encodable (link result).

(** Bytes of a character in a UTF-8 text. *)
Definition utf8_size (c : char) : nat :=
  if (c <? 128)%N then 1
  else if (c <? 2048)%N then 2
  else if (c <? 65536)%N then 3
  else 4.

(** Bytes of a character in the name of a file, nothing where a name
    cannot hold it.  [open] raises [ValueError] for a NUL; a slash
    separates directories, and the cache directory has no directory below
    it to hold the file; names are encoded as UTF-8 where the surrogates
    U+DC80 to U+DCFF stand for single bytes, and any other surrogate
    raises [UnicodeEncodeError]. *)
Definition name_size (c : char) : option nat :=
  if ((c =? 0) || (c =? 47))%N then None
  else if ((56448 <=? c) && (c <=? 56575))%N then Some 1
  else if is_surrogate c then None
  else Some (utf8_size c).

(** [CACHE_DIR / f"{cache_key}.json"] can be opened for writing: the name
    is one path component of at most 255 bytes (a longer one raises
    [OSError]). *)
Definition is_file_name (cache_key : str) : bool :=
  match mapM name_size (cache_key ++ u ".json") with
  | Some sizes => sum_list sizes <=? 255
  | None => false
  end.

(** [save_cached_results], with the clock reading [now].  Every exception
    of the [try] block is logged and swallowed.  When [open] raises, the
    directory stays as it was.  When [json.dump] raises on a string it
    cannot encode, the file has been opened for writing and is closed
    with the part of the record written so far, which [json.load] does
    not read. *)
Definition save_cached_results (now : Q) (cache_key : str)
    (results : list SearchResult) (cache : cache_dir) : cache_dir :=
  let results_data := map item_of_SearchResult results in
  let data := JObj (<[u "timestamp" := JFloat now]>
                   (<[u "results" := JArr results_data]> ∅)) in
  if negb (is_file_name cache_key) then cache
  else if forallb encodable_result results then <[cache_key := Holds data]> cache
  else <[cache_key := Unreadable]> cache.

(** ** Channel searcher: [search_channel_messages] *)

(** [f"https://t.me/{username}" if username else ""], from the optional
    [username] attribute of the entity. *)
Definition link_template_of (e : entity) : str :=
  match username e with
  | Some name => if nonempty name then u "https://t.me/" ++ name else []
  | None => []
  end.

(** [getattr(entity, "title", channel)]. *)
Definition channel_title_of (channel : str) (e : entity) : str :=
  default channel (title e).

Section Searcher.

Variable lower : str -> str.
Variable is_word : char -> bool.

(** The searcher is read for any function from the three arguments to
    the cache key; [get_cache_key] with the digest of the source is one. *)
Variable get_cache_key : list str -> list str -> Z -> str.

(** Body of the loop over the messages of a channel, up to the
    [results.append]: the result built from the message, nothing when the
    message is skipped, or the exception raised. *)
Definition process_message (lowercase_keywords : list str)
    (link_template channel_title : str) (m : message)
    : outcome (option SearchResult) :=
  let text := default [] (message_text m) in
  if negb (nonempty text) then Ok None
  else
    let relevant_sentences :=
      extract_relevant_sentences lower is_word text lowercase_keywords in
    if negb (nonempty relevant_sentences) then Ok None
    else
      let snippet := join (u " ") (take 3 relevant_sentences) in
      let snippet :=
        if (200 <? length snippet)%nat then take 197 snippet ++ u "..."
        else snippet in
      let link :=
        if nonempty link_template then link_template ++ u "/" ++ str_of_Z (id m)
        else u "—" in
      match message_date m with
      | None => Raise AttributeError
      | Some formatted =>
          Ok (Some (mkSearchResult channel_title (id m) formatted snippet link))
      end.

(** The [async for] loop over the messages [ms] the client yields, inside
    its [try]: an exception leaves the loop with the results gathered so
    far.  Returns the results and the messages taken from the client. *)
Fixpoint scan_messages (lowercase_keywords : list str) (limit : Z)
    (link_template channel_title : str) (ms : list message)
    (results : list SearchResult) : list SearchResult * list event :=
  match ms with
  | [] => (results, [])
  | m :: ms' =>
      match process_message lowercase_keywords link_template channel_title m with
      | Raise _ => (results, [NextMessage (id m)])
      | Ok None =>
          let '(results', tr) :=
            scan_messages lowercase_keywords limit link_template channel_title
              ms' results in
          (results', NextMessage (id m) :: tr)
      | Ok (Some result) =>
          let results := results ++ [result] in
          if (len results >=? limit)%Z then (results, [NextMessage (id m)])
          else
            let '(results', tr) :=
              scan_messages lowercase_keywords limit link_template channel_title
                ms' results in
            (results', NextMessage (id m) :: tr)
      end
  end.

(** One channel after its entity is known. *)
Definition scan_channel (cl : client) (lowercase_keywords : list str)
    (limit per_channel_limit : Z) (channel : str) (e : entity)
    (results : list SearchResult) : list SearchResult * list event :=
  let link_template := link_template_of e in
  let channel_title := channel_title_of channel e in
  let '(results', tr) :=
    scan_messages lowercase_keywords limit link_template channel_title
      (take (Z.to_nat per_channel_limit) (iter_messages cl e)) results in
  (results', IterMessages e per_channel_limit :: tr).

(** The [for channel in channels] loop. *)
Fixpoint search_channels (cl : client) (lowercase_keywords : list str)
    (limit per_channel_limit : Z) (channels : list str)
    (results : list SearchResult)
    : outcome (list SearchResult) * list event :=
  match channels with
  | [] => (Ok results, [])
  | channel :: channels' =>
      if (len results >=? limit)%Z then (Ok results, [])
      else
        match get_entity cl channel with
        | LookupRPCError =>
            let '(r, tr) :=
              search_channels cl lowercase_keywords limit per_channel_limit
                channels' results in
            (r, GetEntity channel :: tr)
        | LookupValueError => (Raise ValueError, [GetEntity channel])
        | Found e =>
            let '(results', tr1) :=
              scan_channel cl lowercase_keywords limit per_channel_limit
                channel e results in
            let '(r, tr2) :=
              search_channels cl lowercase_keywords limit per_channel_limit
                channels' results' in
            (r, GetEntity channel :: tr1 ++ tr2)
        end
  end.

(** [search_channel_messages].  [t_load] and [t_save] are the clock
    readings of the cache lookup and of the cache write.  Returns the
    result or the exception, the cache directory left behind, and the
    calls made on the client. *)
Definition search_channel_messages (g : globals) (t_load t_save : Q)
    (cache : cache_dir) (channels keywords : list str) (limit : Z)
    (force_refresh : bool)
    : outcome (list SearchResult) * cache_dir * list event :=
  if negb (TELETHON_AVAILABLE g) then (Ok [], cache, [])
  else
    let cache_key := get_cache_key channels keywords limit in
    let '(cached_results, cache) :=
      if negb force_refresh then load_cached_results t_load cache_key cache
      else (None, cache) in
    match cached_results with
    | Some results => (Ok results, cache, [])
    | None =>
        match ensure_telethon_connected g with
        | Raise e => (Raise e, cache, [])
        | Ok cl =>
            let lowercase_keywords := map lower keywords in
            let per_channel_limit := Z.max 50 (limit * 2) in
            match search_channels cl lowercase_keywords limit per_channel_limit
                    channels [] with
            | (Raise e, tr) => (Raise e, cache, tr)
            | (Ok results, tr) =>
                (Ok results, save_cached_results t_save cache_key results cache, tr)
            end
        end
    end.

End Searcher.

(** ** Result formatter: [format_search_results] *)

(** The slice [l[start:stop]] of Python: a negative index counts from the
    end, and both indices are clamped to the list. *)
Definition slice_index (n i : Z) : Z :=
  if (i <? 0)%Z then Z.max (i + n) 0 else Z.min i n.

Definition py_slice {A} (l : list A) (start stop : Z) : list A :=
  let lo := slice_index (len l) start in
  let hi := slice_index (len l) stop in
  take (Z.to_nat (hi - lo)) (drop (Z.to_nat lo) l).

(** [enumerate(l, start)] with an integer start. *)
Fixpoint enumerate_from {A} (start : Z) (l : list A) : list (Z * A) :=
  match l with
  | [] => []
  | x :: l' => (start, x) :: enumerate_from (start + 1) l'
  end.

(** [s.replace(c, by)] for a pattern of one character. *)
Definition replace_char (c : char) (by_ : str) (s : str) : str :=
  flat_map (fun x => if (x =? c)%N then by_ else [x]) s.

Definition nl : str := [10%N].

Definition no_matches_message : str :=
  u "❌ <b>Совпадений не найдено</b>" ++ nl ++ nl
  ++ u "Попробуйте изменить ключевые слова или каналы.".

Definition dash : str := u "—".

(** The lines one result adds to the text rendering. *)
Definition text_entry (i : Z) (result : SearchResult) : str :=
  (u "<b>" ++ str_of_Z i ++ u ".</b> " ++ channel result ++ nl)
  ++ (u "📅 " ++ date result ++ nl)
  ++ (u "💬 " ++ snippet result ++ nl)
  ++ (if str_eqb (link result) dash then [] else u "🔗 " ++ link result ++ nl)
  ++ nl.

Definition text_header (total_results page : Z) : str :=
  u "🔍 <b>Результаты поиска</b> (" ++ str_of_Z total_results
  ++ u " найдено, стр. " ++ str_of_Z page ++ u ")" ++ nl ++ nl.

Definition format_search_results_as_text (results : list SearchResult)
    (page per_page : Z) : str :=
  if negb (nonempty results) then no_matches_message
  else
    let total_results := len results in
    let start_idx := ((page - 1) * per_page)%Z in
    let end_idx := (start_idx + per_page)%Z in
    let page_results := py_slice results start_idx end_idx in
    fold_left (fun response '(i, result) => response ++ text_entry i result)
      (enumerate_from (start_idx + 1) page_results)
      (text_header total_results page).

(** The row one result adds to the table. *)
Definition table_row (i : Z) (result : SearchResult) : str :=
  let channel := replace_char 10%N (u " ") (replace_char 124%N (u "\|") (channel result)) in
  let snippet := replace_char 10%N (u " ") (replace_char 124%N (u "\|") (snippet result)) in
  let link := if str_eqb (link result) dash then dash else link result in
  let snippet := if 50 <? length snippet then take 47 snippet ++ u "..." else snippet in
  let channel := if 20 <? length channel then take 17 channel ++ u "..." else channel in
  u "| " ++ str_of_Z i ++ u " | " ++ channel ++ u " | " ++ date result ++ u " | "
  ++ snippet ++ u " | " ++ link ++ u " |" ++ nl.

Definition table_header (total_results page : Z) : str :=
  (u "📊 <b>Результаты поиска</b> (" ++ str_of_Z total_results
   ++ u " найдено, стр. " ++ str_of_Z page ++ u ")" ++ nl ++ nl)
  ++ (u "| # | Канал | Дата | Текст | Ссылка |" ++ nl)
  ++ (u "|----|-------|------|-------|--------|" ++ nl).

Definition format_search_results_as_table (results : list SearchResult)
    (page per_page : Z) : str :=
  if negb (nonempty results) then no_matches_message
  else
    let total_results := len results in
    let start_idx := ((page - 1) * per_page)%Z in
    let end_idx := (start_idx + per_page)%Z in
    let page_results := py_slice results start_idx end_idx in
    fold_left (fun response '(i, result) => response ++ table_row i result)
      (enumerate_from (start_idx + 1) page_results)
      (table_header total_results page).

Definition format_search_results (results : list SearchResult)
    (page per_page : Z) (use_table : bool) : str :=
  if use_table then format_search_results_as_table results page per_page
  else format_search_results_as_text results page per_page.

(** ** Keyword validation: [validate_keywords] *)

(** Body of the loop; [validated] is the list being built. *)
Definition validate_step (validated : list str) (kw : str) : list str :=
  let kw := strip kw in
  if length kw <? 2 then validated
  else
    let kw := if 50 <? length kw then take 50 kw else kw in
    validated ++ [kw].

Definition validate_keywords (keywords : list str) : list str :=
  if negb (nonempty keywords) then []
  else take 10 (fold_left validate_step keywords []).

(** ** Notions of the specification *)

(** Edit scripts: [edits s t n] says that [n] single-character insertions,
    deletions and substitutions turn [s] into [t]. *)
Inductive edits : str -> str -> nat -> Prop :=
  | edits_nil : edits [] [] 0
  | edits_keep c s t n : edits s t n -> edits (c :: s) (c :: t) n
  | edits_subst c d s t n : edits s t n -> edits (c :: s) (d :: t) (S n)
  | edits_insert d s t n : edits s t n -> edits s (d :: t) (S n)
  | edits_delete c s t n : edits s t n -> edits (c :: s) t (S n).

(** The Levenshtein distance of [s] and [t] is [d]: the cost of a cheapest
    edit script. *)
Definition is_levenshtein (s t : str) (d : nat) : Prop :=
  edits s t d /\ forall n, edits s t n -> d <= n.

(** The textbook recurrence on the first characters. *)
Fixpoint lev (s : str) : str -> nat :=
  fix lev_s (t : str) : nat :=
    match s, t with
    | [], _ => length t
    | _, [] => length s
    | c :: s', d :: t' =>
        min3 (lev s' t + 1) (lev_s t' + 1)
             (lev s' t' + (if (c =? d)%N then 0 else 1))
    end.

(** The row of the dynamic-programming table reached when the characters
    read so far from the first string are [p] (last one first): its entry
    [j] is the distance to the first [j] characters of [s2]. *)
Definition lev_row (s2 p : str) : list nat :=
  map (fun j => lev p (rev (take j s2))) (seq 0 (length s2 + 1)).

(** [k] occurs in [w]. *)
Definition substring (k w : str) : Prop :=
  exists pre post, w = pre ++ k ++ post.

(** The suffix heuristic relates [w] and [k] through [ending]: [w] is [k]
    followed by the ending, or [k] ends with the ending and [w] is [k]
    without it. *)
Definition suffix_related (w k ending : str) : Prop :=
  w = k ++ ending \/ k = w ++ ending.

(** [t] is [s] without its surrounding whitespace: [s] is [t] between two
    runs of whitespace, and [t] neither starts nor ends with a whitespace
    character. *)
Definition stripped_of (s t : str) : Prop :=
  exists pre post,
    s = pre ++ t ++ post
    /\ Forall (fun c => isspace c = true) pre
    /\ Forall (fun c => isspace c = true) post
    /\ (forall c t', t = c :: t' -> isspace c = false)
    /\ (forall t' c, t = t' ++ [c] -> isspace c = false).

(** A page as the formatter lays it out: the header, then the entries of
    [page_results] numbered from [first]. *)
Definition render_page (header : str) (entry : Z -> SearchResult -> str)
    (first : Z) (page_results : list SearchResult) : str :=
  header ++ concat (map (fun '(i, result) => entry i result)
                      (enumerate_from first page_results)).

(** The page of [results] that shows [page_results], in either mode. *)
Definition rendered (results : list SearchResult) (page per_page : Z)
    (use_table : bool) (page_results : list SearchResult) : str :=
  if use_table then
    render_page (table_header (len results) page) table_row
      ((page - 1) * per_page + 1) page_results
  else
    render_page (text_header (len results) page) text_entry
      ((page - 1) * per_page + 1) page_results.

(** ** Sample data for the worked examples *)

Definition sample_result (n : Z) : SearchResult :=
  mkSearchResult (u "Demo") n (u "01.02.24 10:00") (u "Python is here now.")
    (u "https://t.me/demo/" ++ str_of_Z n).

Definition twelve_results : list SearchResult :=
  map sample_result [1; 2; 3; 4; 5; 6; 7; 8; 9; 10; 11; 12]%Z.

(** A channel with three messages, newest first, all about the keyword; the
    second one carries no date, so that building its result raises. *)
Definition demo_entity : entity := mkEntity (Some (u "demo")) (Some (u "Demo")).

Definition demo_message (n : Z) (text : str) : message :=
  mkMessage n (Some text) (Some (u "01.02.24 10:00")).

Definition undated_message (n : Z) (text : str) : message :=
  mkMessage n (Some text) None.

Definition demo_client (messages : list message) (connected : bool) : client :=
  mkClient connected false true
    (fun channel => if str_eqb channel (u "@demo") then Found demo_entity
                    else LookupRPCError)
    (fun _ => messages).

Definition three_messages : list message :=
  [demo_message 3 (u "Python is here now.");
   undated_message 2 (u "More about python today.");
   demo_message 1 (u "Learning python is fun.")].

Definition two_messages : list message :=
  [demo_message 3 (u "Python is here now.");
   demo_message 1 (u "Learning python is fun.")].

Definition demo_result (n : Z) (text : str) : SearchResult :=
  mkSearchResult (u "Demo") n (u "01.02.24 10:00") text
    (u "https://t.me/demo/" ++ str_of_Z n).

(** Stands for the digest of [get_cache_key] in the examples. *)
Definition sample_key (channels keywords : list str) (limit : Z) : str :=
  join (u ",") channels ++ u "_" ++ join (u ",") keywords ++ u "_" ++ str_of_Z limit.

(** The search of the examples: channels and keyword fixed, an empty cache
    directory, clock readings 0 and 1. *)
Definition demo_search (g : globals) (channels : list str) (limit : Z)
    : outcome (list SearchResult) * cache_dir * list event :=
  search_channel_messages lower_basic is_word_basic sample_key g 0 1 ∅
    channels [u "Python"] limit true.

(** Two channels with one message each about the keyword. *)
Definition entity_a : entity := mkEntity (Some (u "a")) (Some (u "A")).

Definition entity_b : entity := mkEntity (Some (u "b")) (Some (u "B")).

Definition two_channel_client : client :=
  mkClient true false true
    (fun channel => if str_eqb channel (u "@a") then Found entity_a
                    else if str_eqb channel (u "@b") then Found entity_b
                    else LookupRPCError)
    (fun e => if str_eqb (default [] (username e)) (u "a")
              then [demo_message 1 (u "Python is used in channel A.")]
              else [demo_message 2 (u "Python is used in channel B.")]).

Definition result_a : SearchResult :=
  mkSearchResult (u "A") 1 (u "01.02.24 10:00") (u "Python is used in channel A.")
    (u "https://t.me/a/1").

Definition result_b : SearchResult :=
  mkSearchResult (u "B") 2 (u "01.02.24 10:00") (u "Python is used in channel B.")
    (u "https://t.me/b/2").

(** The list a search returned, empty when it raised. *)
Definition results_of (o : outcome (list SearchResult)) : list SearchResult :=
  match o with
  | Ok results => results
  | Raise _ => []
  end.

(** A client that is connected but not authorized. *)
Definition unauthorized_client : client :=
  mkClient true false false (fun _ => LookupRPCError) (fun _ => []).

(** The attributes by which results are compared with messages. *)
Definition result_key (result : SearchResult) : str * Z :=
  (channel result, message_id result).

(** The messages a channel can contribute, in the order the client yields
    them, with the channel title its results carry. *)
Definition candidates (cl : client) (per_channel_limit : Z) (channel : str)
    : list (str * Z) :=
  match get_entity cl channel with
  | Found e =>
      map (fun m => (channel_title_of channel e, id m))
        (take (Z.to_nat per_channel_limit) (iter_messages cl e))
  | _ => []
  end.

(** The client cannot be used: it was not created, connecting it raises, or
    it is not authorized. *)
Definition client_unusable (g : globals) : Prop :=
  telethon_client g = None
  \/ exists cl, telethon_client g = Some cl
                /\ (is_connected cl = false /\ connect_raises cl = true
                    \/ is_user_authorized cl = false).

(** The cache directory a search finds after its lookup. *)
Definition cache_after_lookup (t_load : Q) (cache_key : str) (cache : cache_dir)
    (force_refresh : bool) : cache_dir :=
  if negb force_refresh then snd (load_cached_results t_load cache_key cache)
  else cache.

(** The whitespace-normalized form of a sentence, [" ".join(s.split())]. *)
Definition normalize_ws (s : str) : str := join (u " ") (split_ws s).

(** A sentence is relevant: one of its lower-cased tokens matches one of
    the keywords. *)
Definition relevant (lower : str -> str) (is_word : char -> bool)
    (keywords : list str) (sentence : str) : bool :=
  has_match lower (findall_words is_word (strip (lower sentence))) keywords.

(** The shape of a result the searcher builds: a snippet of more than 10
    and at most 200 characters, and a link that is the sentinel or the
    address of the message under a public user name. *)
Definition well_formed_result (result : SearchResult) : Prop :=
  10 < length (snippet result) <= 200
  /\ (link result = dash
      \/ exists name, name <> [] /\
           link result
           = u "https://t.me/" ++ name ++ u "/" ++ str_of_Z (message_id result)).

(** ** Keyboard of the result pages: [create_search_results_keyboard] *)

(** A button of an inline keyboard, with its text and its callback data. *)
Record button := mkButton {
  button_text : str;
  callback_data : str
}.

(** [builder.adjust(n)] followed by [as_markup()]: the buttons in rows of
    [n], the last row with what is left; [row] is the row being filled. *)
Fixpoint adjust (n : nat) (row buttons : list button) : list (list button) :=
  match buttons with
  | [] => match row with [] => [] | _ => [row] end
  | b :: buttons' =>
      if length row + 1 =? n then (row ++ [b]) :: adjust n [] buttons'
      else adjust n (row ++ [b]) buttons'
  end.

(** The callback data of a page button, [f"page_{page}_{request_timestamp}"]. *)
Definition page_callback (page : Z) (request_timestamp : str) : str :=
  u "page_" ++ str_of_Z page ++ u "_" ++ request_timestamp.

(** The buttons of [create_search_results_keyboard] in the order they are
    added.  The floor division raises [ZeroDivisionError] for
    [per_page = 0], which is [None] here. *)
Definition search_results_buttons (request_timestamp : str)
    (total_results current_page per_page : Z) (current_format : str)
    : option (list button) :=
  if (per_page =? 0)%Z then None
  else
    let total_pages := ((total_results + per_page - 1) / per_page)%Z in
    let pagination :=
      if (total_pages >? 1)%Z then
        (if (current_page >? 1)%Z then
           [mkButton (u "⬅️ Назад")
              (page_callback (current_page - 1) request_timestamp)]
         else [])
        ++ [mkButton (u "📄 " ++ str_of_Z current_page ++ u "/"
                      ++ str_of_Z total_pages) (u "ignore")]
        ++ (if (current_page <? total_pages)%Z then
              [mkButton (u "➡️ Далее")
                 (page_callback (current_page + 1) request_timestamp)]
            else [])
      else [] in
    let formats :=
      (if negb (str_eqb current_format (u "table")) then
         [mkButton (u "📊 Таблица") (u "show_table_results_" ++ request_timestamp)]
       else [])
      ++ (if negb (str_eqb current_format (u "text")) then
            [mkButton (u "📝 Текст") (u "show_text_results_" ++ request_timestamp)]
          else []) in
    Some (pagination ++ formats
          ++ [mkButton (u "🔍 Новый поиск") (u "new_request");
              mkButton (u "🏠 Главное меню") (u "back_to_menu")]).

Definition create_search_results_keyboard (request_timestamp : str)
    (total_results current_page per_page : Z) (current_format : str)
    : option (list (list button)) :=
  match search_results_buttons request_timestamp total_results current_page
          per_page current_format with
  | Some buttons => Some (adjust 2 [] buttons)
  | None => None
  end.

(** ** Input lists: [normalize_list], [validate_channels] *)

(** [s.split(sep)] for a non-empty separator: the pieces between the
    occurrences of [sep], found from left to right without overlap.  [skip]
    counts the characters of a found occurrence still to pass over, [cur]
    is the piece being read. *)
Fixpoint split_from (sep : str) (skip : nat) (cur : str) (s : str)
    : list str :=
  match s with
  | [] => [cur]
  | c :: s' =>
      match skip with
      | S k => split_from sep k cur s'
      | 0 =>
          if startswith s sep then cur :: split_from sep (length sep - 1) [] s'
          else split_from sep 0 (cur ++ [c]) s'
      end
  end.

Definition str_split (s sep : str) : list str := split_from sep 0 [] s.

(** [s.replace(old, new)] for a non-empty [old]. *)
Definition str_replace (s old new : str) : str := join new (str_split s old).

Definition normalize_list (payload : str) : list str :=
  if negb (nonempty payload) || negb (nonempty (strip payload)) then []
  else
    let raw := map strip (str_split (str_replace payload nl (u ",")) (u ",")) in
    List.filter nonempty raw.

(** Body of the loop of [validate_channels]; [validated] is the list being
    built. *)
Definition validate_channels_step (validated : list str) (channel : str)
    : list str :=
  let channel := strip channel in
  if negb (nonempty channel) then validated
  else if startswith channel (u "@") then validated ++ [channel]
  else if startswith channel (u "https://t.me/") then
    let username :=
      hd [] (str_split (str_replace channel (u "https://t.me/") []) (u "/")) in
    if nonempty username then validated ++ [u "@" ++ username] else validated
  else if str_contains channel (u "t.me/") then
    let parts := str_split channel (u "t.me/") in
    if 1 <? length parts then
      let username := hd [] (str_split (nth 1 parts []) (u "/")) in
      if nonempty username then validated ++ [u "@" ++ username] else validated
    else validated
  else validated ++ [u "@" ++ channel].

Definition validate_channels (channels : list str) : list str :=
  if negb (nonempty channels) then []
  else take 5 (fold_left validate_channels_step channels []).

(** A cell of the table: the text with [|] escaped and line breaks turned
    into spaces, cut to [limit] characters with an ellipsis. *)
Definition table_cell (limit : nat) (s : str) : str :=
  let cell := replace_char 10%N (u " ") (replace_char 124%N (u "\|") s) in
  if limit <? length cell then take (limit - 3) cell ++ u "..." else cell.

(** The page [page] of a result list, as both formatters cut it. *)
Definition page_of {A} (results : list A) (per_page page : Z) : list A :=
  py_slice results ((page - 1) * per_page) ((page - 1) * per_page + per_page).

(** The pages [first], [first + 1], ... ([count] of them), one after the
    other. *)
Fixpoint pages_from {A} (results : list A) (per_page first : Z) (count : nat)
    : list A :=
  match count with
  | 0 => []
  | S count' =>
      page_of results per_page first
      ++ pages_from results per_page (first + 1) count'
  end.

(** ** Text handlers: [handle_text], [handle_channels_only]

    The handlers are read as functions of the text received (and of the
    data kept in the conversation state): they return the answers sent, in
    order, the request saved if one is, and what is done to the
    conversation state.  An answer is given by its kind and by the data its
    text shows; the user and the time of a saved request come from the
    message and the clock and are left out. *)

Inductive answer :=
  | InvalidRequest
  | KeywordsMissing
  | ChannelsMissing (keywords : list str)
  | AskForChannels (keywords : list str)
  | ChannelsNotRecognized
  | TooManyKeywords (given : Z) (kept : list str)
  | TooManyChannels (given : Z) (kept : list str)
  | RequestSaved (keywords channels : list str).

Inductive state_step :=
  | KeepState
  | AwaitChannels (keywords : list str)
  | ClearState.

(** The test that makes a part of the message a channel. *)
Definition is_channel_part (part : str) : bool :=
  startswith part (u "@") || startswith part (u "https://t.me/")
  || str_contains part (u "t.me/").

(** Body of the loop over the parts of the message; the state is the pair
    of the lists [keywords] and [channels]. *)
Definition sort_part (lists : list str * list str) (part : str)
    : list str * list str :=
  let '(keywords, channels) := lists in
  if is_channel_part part then (keywords, channels ++ [part])
  else (keywords ++ [part], channels).

(** The two limit checks that the handlers share, each with its warning. *)
Definition limit_keywords (keywords : list str) : list answer * list str :=
  if 10 <? length keywords then
    ([TooManyKeywords (len keywords) (take 10 keywords)], take 10 keywords)
  else ([], keywords).

Definition limit_channels (channels : list str) : list answer * list str :=
  if 5 <? length channels then
    ([TooManyChannels (len channels) (take 5 channels)], take 5 channels)
  else ([], channels).

Definition handle_text (text : str)
    : list answer * option (list str * list str) * state_step :=
  let text := strip text in
  let parts := split_ws text in
  let '(keywords, channels) := fold_left sort_part parts ([], []) in
  let keywords := validate_keywords keywords in
  let channels := validate_channels channels in
  if negb (nonempty keywords) && negb (nonempty channels) then
    ([InvalidRequest], None, KeepState)
  else if negb (nonempty keywords) then ([KeywordsMissing], None, KeepState)
  else if negb (nonempty channels) then
    if 3 <? length keywords then ([ChannelsMissing keywords], None, KeepState)
    else ([AskForChannels keywords], None, AwaitChannels keywords)
  else
    let '(warned1, keywords) := limit_keywords keywords in
    let '(warned2, channels) := limit_channels channels in
    (warned1 ++ warned2 ++ [RequestSaved keywords channels],
     Some (keywords, channels), ClearState).

(** [data_keywords] is the entry [keywords] of the state data, if any. *)
Definition handle_channels_only (text : str) (data_keywords : option (list str))
    : list answer * option (list str * list str) * state_step :=
  let channels := validate_channels (normalize_list text) in
  if negb (nonempty channels) then ([ChannelsNotRecognized], None, KeepState)
  else
    let keywords := default [] data_keywords in
    let '(warned, channels) := limit_channels channels in
    (warned ++ [RequestSaved keywords channels],
     Some (keywords, channels), ClearState).

(** A request as the data model wants it: one to ten keywords of 2 to 50
    characters, one to five channels starting with [@]. *)
Definition valid_request (keywords channels : list str) : Prop :=
  1 <= length keywords <= 10
  /\ Forall (fun kw => 2 <= length kw <= 50) keywords
  /\ 1 <= length channels <= 5
  /\ Forall (fun channel => exists rest, channel = 64%N :: rest) channels.

(** ** Properties *)

(** *** Worked examples *)

Example u_code_points : u "aя—🔍" = [97; 1103; 8212; 128269]%N.
Proof. reflexivity. Qed.

Example endings_third : nth 2 endings [] = [1086; 1074]%N.
Proof. reflexivity. Qed.

Example levenshtein_kitten_sitting :
  levenshtein_distance (u "kitten") (u "sitting") = 3.
Proof. reflexivity. Qed.

Example match_inflected :
  fuzzy_match_word lower_basic (u "Каналами") (u "канал") = true.
Proof. reflexivity. Qed.

Example split_three_sentences :
  re_split_sentences (u "I like Python a lot.  Do you?   Pythons are snakes!")
  = [u "I like Python a lot."; u "Do you?"; u "Pythons are snakes!"].
Proof. reflexivity. Qed.

Example extract_two_of_three :
  extract_relevant_sentences lower_basic is_word_basic
    (u "I like   Python a lot.  Do you?   Pythons are snakes!") [u "python"]
  = [u "I like Python a lot."; u "Pythons are snakes!"].
Proof. reflexivity. Qed.

Example validate_example :
  validate_keywords [u " ab "; u "c"; u "  "; u "def"] = [u "ab"; u "def"].
Proof. reflexivity. Qed.

Example slice_negative_bounds :
  py_slice [1; 2; 3; 4; 5; 6; 7; 8; 9; 10; 11; 12] (-10) (-5) = [3; 4; 5; 6; 7].
Proof. reflexivity. Qed.

(** A search on an empty cache finds the two messages about the keyword;
    the same search repeated answers from the cache without a call on the
    client. *)
Example search_then_cached :
  let g := mkGlobals true (Some (demo_client two_messages true)) in
  let first :=
    search_channel_messages lower_basic is_word_basic sample_key g 0 1 ∅
      [u "@demo"] [u "python"] 5 false in
  let second :=
    search_channel_messages lower_basic is_word_basic sample_key g 2 3
      (snd (fst first)) [u "@demo"] [u "python"] 5 false in
  fst (fst first) = Ok [demo_result 3 (u "Python is here now.");
                        demo_result 1 (u "Learning python is fun.")]
  /\ second = (fst (fst first), snd (fst first), []).
Proof. vm_compute. split; reflexivity. Qed.

(** *** Strings *)

Lemma str_eqb_eq (a b : str) : str_eqb a b = true <-> a = b.
Proof. unfold str_eqb. apply bool_decide_eq_true. Qed.

Lemma str_eqb_neq (a b : str) : str_eqb a b = false <-> a <> b.
Proof. unfold str_eqb. apply bool_decide_eq_false. Qed.

Lemma startswith_spec (s p : str) :
  startswith s p = true <-> exists post, s = p ++ post.
Proof.
  revert s; induction p as [|c p IH]; intros s; simpl.
  - split; [intros _; now exists s | reflexivity].
  - destruct s as [|d s]; simpl.
    + split; [discriminate | intros [post H]; discriminate].
    + rewrite andb_true_iff, N.eqb_eq, IH. split.
      * intros [-> [post ->]]. eauto.
      * intros [post H]. injection H as -> ->. eauto.
Qed.

Lemma str_contains_spec (w k : str) :
  str_contains w k = true <-> substring k w.
Proof.
  unfold substring. induction w as [|c w IH]; simpl.
  - rewrite orb_false_r, startswith_spec. split.
    + intros [post H]. exists [], post. exact H.
    + intros [pre [post H]]. destruct pre; simpl in H.
      * eauto.
      * discriminate.
  - rewrite orb_true_iff, startswith_spec, IH. split.
    + intros [[post H] | [pre [post H]]].
      * exists [], post. exact H.
      * exists (c :: pre), post. simpl. now rewrite H.
    + intros [pre [post H]]. destruct pre as [|c' pre]; simpl in H.
      * left. eauto.
      * right. injection H as -> H. eauto.
Qed.

Lemma endswith_spec (s e : str) :
  endswith s e = true <-> exists stem, s = stem ++ e.
Proof.
  unfold endswith. rewrite str_eqb_eq. split.
  - intros H. exists (take (length s - length e) s).
    pose proof (take_drop (length s - length e) s) as E.
    rewrite H in E. now symmetry.
  - intros [stem ->]. rewrite length_app.
    replace (length stem + length e - length e) with (length stem) by lia.
    apply drop_app_length.
Qed.

Lemma slice_to_minus_app (stem e : str) :
  e <> [] -> slice_to_minus (stem ++ e) (length e) = stem.
Proof.
  intros He. unfold slice_to_minus.
  destruct e as [|c e]; [congruence|]. simpl Nat.eqb.
  rewrite length_app.
  replace (length stem + length (c :: e) - length (c :: e)) with (length stem) by lia.
  apply take_app_length.
Qed.

Lemma suffix_test_spec (wl kl e : str) :
  e <> [] ->
  endswith kl e && str_eqb wl (slice_to_minus kl (length e)) = true
  <-> kl = wl ++ e.
Proof.
  intros He. rewrite andb_true_iff, endswith_spec, str_eqb_eq. split.
  - intros [[stem ->] ->]. now rewrite slice_to_minus_app.
  - intros ->. split; [now exists wl | now rewrite slice_to_minus_app].
Qed.

Lemma endings_loop_spec (wl kl : str) (es : list str) :
  Forall (fun e => e <> []) es ->
  endings_loop wl kl es = true <->
  exists e, In e es /\ suffix_related wl kl e.
Proof.
  unfold suffix_related. induction 1 as [|e es He Hes IH]; simpl.
  - split; [discriminate | intros [e [[] _]]].
  - destruct (str_eqb wl (kl ++ e)) eqn:E1.
    + apply str_eqb_eq in E1. split; [|reflexivity].
      intros _. exists e. auto.
    + apply str_eqb_neq in E1.
      destruct (endswith kl e && str_eqb wl (slice_to_minus kl (length e))) eqn:E2.
      * apply suffix_test_spec in E2; [|exact He]. split; [|reflexivity].
        intros _. exists e. auto.
      * rewrite IH. split.
        -- intros [e' [Hin H]]. exists e'. auto.
        -- intros [e' [[<- | Hin] H]].
           ++ destruct H as [H | H]; [contradiction|].
              apply (suffix_test_spec wl kl e He) in H. congruence.
           ++ exists e'. auto.
Qed.

Lemma endings_nonempty : Forall (fun e : str => e <> []) endings.
Proof. repeat constructor; discriminate. Qed.

(** *** Edit distance *)

Lemma min3_le_1 a b c : min3 a b c <= a.
Proof. unfold min3. lia. Qed.

Lemma min3_le_2 a b c : min3 a b c <= b.
Proof. unfold min3. lia. Qed.

Lemma min3_le_3 a b c : min3 a b c <= c.
Proof. unfold min3. lia. Qed.

Lemma min3_cases a b c : min3 a b c = a \/ min3 a b c = b \/ min3 a b c = c.
Proof. unfold min3. lia. Qed.

Lemma lev_nil_l (t : str) : lev [] t = length t.
Proof. destruct t; reflexivity. Qed.

Lemma lev_nil_r (s : str) : lev s [] = length s.
Proof. destruct s; reflexivity. Qed.

Lemma lev_cons (c d : char) (s t : str) :
  lev (c :: s) (d :: t) =
  min3 (lev s (d :: t) + 1) (lev (c :: s) t + 1)
       (lev s t + (if (c =? d)%N then 0 else 1)).
Proof. reflexivity. Qed.

(** No edit script is cheaper than the recurrence says. *)
Lemma lev_le_edits (s t : str) (n : nat) : edits s t n -> lev s t <= n.
Proof.
  induction 1 as [|c s t n _ IH|c d s t n _ IH|d s t n _ IH|c s t n _ IH].
  - reflexivity.
  - rewrite lev_cons, N.eqb_refl. pose proof (min3_le_3 (lev s (c :: t) + 1)
      (lev (c :: s) t + 1) (lev s t + 0)). lia.
  - rewrite lev_cons.
    pose proof (min3_le_3 (lev s (d :: t) + 1) (lev (c :: s) t + 1)
                  (lev s t + (if (c =? d)%N then 0 else 1))).
    destruct (c =? d)%N; lia.
  - destruct s as [|c s].
    + rewrite lev_nil_l in *. simpl. lia.
    + rewrite lev_cons.
      pose proof (min3_le_2 (lev s (d :: t) + 1) (lev (c :: s) t + 1)
                    (lev s t + (if (c =? d)%N then 0 else 1))). lia.
  - destruct t as [|d t].
    + rewrite lev_nil_r in *. simpl. lia.
    + rewrite lev_cons.
      pose proof (min3_le_1 (lev s (d :: t) + 1) (lev (c :: s) t + 1)
                    (lev s t + (if (c =? d)%N then 0 else 1))). lia.
Qed.

Lemma edits_nil_l (t : str) : edits [] t (length t).
Proof. induction t; simpl; constructor; assumption. Qed.

Lemma edits_nil_r (s : str) : edits s [] (length s).
Proof. induction s; simpl; constructor; assumption. Qed.

(** The recurrence is the cost of some edit script. *)
Lemma lev_edits (s t : str) : edits s t (lev s t).
Proof.
  revert t. induction s as [|c s IHs]; intros t.
  - rewrite lev_nil_l. apply edits_nil_l.
  - induction t as [|d t IHt].
    + rewrite lev_nil_r. apply edits_nil_r.
    + rewrite lev_cons.
      destruct (min3_cases (lev s (d :: t) + 1) (lev (c :: s) t + 1)
                  (lev s t + (if (c =? d)%N then 0 else 1))) as [E | [E | E]];
        rewrite E.
      * rewrite Nat.add_1_r. apply edits_delete, IHs.
      * rewrite Nat.add_1_r. apply edits_insert, IHt.
      * destruct (c =? d)%N eqn:Ecd.
        -- apply N.eqb_eq in Ecd as ->. rewrite Nat.add_0_r.
           apply edits_keep, IHs.
        -- rewrite Nat.add_1_r. apply edits_subst, IHs.
Qed.

Lemma lev_is_levenshtein (s t : str) : is_levenshtein s t (lev s t).
Proof. split; [apply lev_edits | apply lev_le_edits]. Qed.

Lemma is_levenshtein_unique (s t : str) (d d' : nat) :
  is_levenshtein s t d -> is_levenshtein s t d' -> d = d'.
Proof.
  intros [H1 H2] [H1' H2']. apply H2 in H1'. apply H2' in H1. lia.
Qed.

Lemma edits_sym (s t : str) (n : nat) : edits s t n -> edits t s n.
Proof. induction 1; constructor; assumption. Qed.

Lemma edits_refl (s : str) : edits s s 0.
Proof. induction s; constructor; assumption. Qed.

(** Scripts can be extended at the end of the strings as well. *)
Lemma edits_snoc_keep (s t : str) (n : nat) (c : char) :
  edits s t n -> edits (s ++ [c]) (t ++ [c]) n.
Proof.
  induction 1; simpl; try (constructor; assumption).
  apply edits_keep, edits_nil.
Qed.

Lemma edits_snoc_subst (s t : str) (n : nat) (c d : char) :
  edits s t n -> edits (s ++ [c]) (t ++ [d]) (S n).
Proof.
  induction 1; simpl; try (constructor; assumption).
  apply edits_subst, edits_nil.
Qed.

Lemma edits_snoc_insert (s t : str) (n : nat) (d : char) :
  edits s t n -> edits s (t ++ [d]) (S n).
Proof.
  induction 1; simpl; try (constructor; assumption).
  apply edits_insert, edits_nil.
Qed.

Lemma edits_snoc_delete (s t : str) (n : nat) (c : char) :
  edits s t n -> edits (s ++ [c]) t (S n).
Proof.
  induction 1; simpl; try (constructor; assumption).
  apply edits_delete, edits_nil.
Qed.

Lemma edits_rev (s t : str) (n : nat) : edits s t n -> edits (rev s) (rev t) n.
Proof.
  induction 1; simpl.
  - constructor.
  - now apply edits_snoc_keep.
  - now apply edits_snoc_subst.
  - now apply edits_snoc_insert.
  - now apply edits_snoc_delete.
Qed.

Lemma is_levenshtein_rev (s t : str) (d : nat) :
  is_levenshtein (rev s) (rev t) d -> is_levenshtein s t d.
Proof.
  intros [H1 H2]. split.
  - apply edits_rev in H1. now rewrite !rev_involutive in H1.
  - intros n Hn. apply H2. now apply edits_rev.
Qed.

Lemma is_levenshtein_sym (s t : str) (d : nat) :
  is_levenshtein s t d -> is_levenshtein t s d.
Proof.
  intros [H1 H2]. split.
  - now apply edits_sym.
  - intros n Hn. apply H2. now apply edits_sym.
Qed.

(** *** The rolling-row computation *)

Lemma nth_map_seq (f : nat -> nat) (n j : nat) :
  j < n -> nth j (map f (seq 0 n)) 0 = f j.
Proof.
  intros H. rewrite (nth_indep _ 0 (f 0)) by now rewrite length_map, length_seq.
  rewrite map_nth, seq_nth by exact H. reflexivity.
Qed.

Lemma take_app_one (q r : str) (c : char) :
  take (length q + 1) (q ++ c :: r) = q ++ [c].
Proof. induction q as [|x q IH]; simpl; [reflexivity | now rewrite IH]. Qed.

Lemma take_app_exact (q r : str) : take (length q) (q ++ r) = q.
Proof. apply take_app_length. Qed.

Lemma lev_row_nth (s2 p : str) (j : nat) :
  j <= length s2 -> nth j (lev_row s2 p) 0 = lev p (rev (take j s2)).
Proof. intros H. unfold lev_row. rewrite nth_map_seq by lia. reflexivity. Qed.

(** The inner loop completes the row of [c1 :: p] from the row of [p]. *)
Lemma lev_inner_loop (c1 : char) (s2 p : str) :
  forall (r q : str) (current_row : list nat),
    s2 = q ++ r ->
    current_row =
      map (fun j => lev (c1 :: p) (rev (take j s2))) (seq 0 (length q + 1)) ->
    fold_left (lev_inner_step c1 (lev_row s2 p))
      (combine (seq (length q) (length r)) r) current_row
    = lev_row s2 (c1 :: p).
Proof.
  induction r as [|c2 r IH]; intros q current_row Hs2 Hrow.
  - simpl. subst. unfold lev_row. now rewrite app_nil_r.
  - cbn [length seq combine fold_left]. rewrite <- (Nat.add_1_r (length q)).
    replace (length q + 1) with (length (q ++ [c2])) by (rewrite length_app; simpl; lia).
    apply IH.
    + rewrite Hs2. now rewrite <- app_assoc.
    + rewrite length_app. simpl length.
      rewrite (seq_app (length q + 1) 1 0), map_app, <- Hrow.
      cbn [seq map Nat.add]. unfold lev_inner_step.
      f_equal. f_equal.
      rewrite lev_row_nth by (subst s2; rewrite length_app; simpl; lia).
      rewrite lev_row_nth by (subst s2; rewrite length_app; simpl; lia).
      rewrite Hrow, nth_map_seq by lia.
      rewrite Hs2, take_app_one, take_app_exact, rev_app_distr.
      simpl app. now rewrite lev_cons.
Qed.

Lemma lev_outer_step_row (s2 p : str) (c1 : char) :
  lev_outer_step s2 (lev_row s2 (rev p)) (length p, c1)
  = lev_row s2 (rev (p ++ [c1])).
Proof.
  unfold lev_outer_step, enumerate. rewrite rev_app_distr. simpl rev. simpl app.
  apply (lev_inner_loop c1 s2 (rev p) s2 []); [reflexivity|].
  cbn [length Nat.add seq map]. rewrite take_0. cbn [rev].
  rewrite lev_nil_r. cbn [length]. now rewrite length_rev, Nat.add_1_r.
Qed.

Lemma lev_outer_loop (s1 s2 : str) :
  forall (r p : str),
    s1 = p ++ r ->
    fold_left (lev_outer_step s2) (combine (seq (length p) (length r)) r)
      (lev_row s2 (rev p))
    = lev_row s2 (rev s1).
Proof.
  induction r as [|c1 r IH]; intros p Hs1.
  - simpl. subst. now rewrite app_nil_r.
  - cbn [length seq combine fold_left]. rewrite lev_outer_step_row.
    replace (S (length p)) with (length (p ++ [c1])) by (rewrite length_app; simpl; lia).
    apply IH. rewrite Hs1. now rewrite <- app_assoc.
Qed.

Lemma lev_row_initial (s2 : str) : seq 0 (length s2 + 1) = lev_row s2 [].
Proof.
  unfold lev_row. rewrite <- (map_id (seq 0 (length s2 + 1))) at 1.
  apply map_ext_in. intros j Hj. apply in_seq in Hj.
  rewrite lev_nil_l, length_rev, length_take. lia.
Qed.

Lemma levenshtein_rows_row (s1 s2 : str) :
  levenshtein_rows s1 s2 = lev_row s2 (rev s1).
Proof.
  unfold levenshtein_rows, enumerate. rewrite lev_row_initial.
  apply (lev_outer_loop s1 s2 s1 []). reflexivity.
Qed.

(** The rows keep the length the indexing relies on. *)
Lemma levenshtein_rows_length (s1 s2 : str) :
  length (levenshtein_rows s1 s2) = length s2 + 1.
Proof.
  rewrite levenshtein_rows_row. unfold lev_row.
  now rewrite length_map, length_seq.
Qed.

Lemma levenshtein_body_lev (s1 s2 : str) :
  levenshtein_body s1 s2 = lev (rev s1) (rev s2).
Proof.
  unfold levenshtein_body. destruct (length s2 =? 0) eqn:E.
  - apply Nat.eqb_eq in E. destruct s2; [|discriminate].
    simpl. now rewrite lev_nil_r, length_rev.
  - rewrite levenshtein_rows_row. unfold lev_row.
    rewrite (seq_app (length s2) 1 0), map_app. simpl.
    rewrite last_last, firstn_all. reflexivity.
Qed.

(** The function of the source computes the Levenshtein distance. *)
Lemma levenshtein_distance_correct (s1 s2 : str) :
  is_levenshtein s1 s2 (levenshtein_distance s1 s2).
Proof.
  unfold levenshtein_distance. destruct (length s1 <? length s2).
  - apply is_levenshtein_sym, is_levenshtein_rev.
    rewrite levenshtein_body_lev. apply lev_is_levenshtein.
  - apply is_levenshtein_rev.
    rewrite levenshtein_body_lev. apply lev_is_levenshtein.
Qed.

(** *** Fuzzy matcher *)

Lemma fuzzy_match_word_unfold (lower : str -> str) (word keyword : str) :
  fuzzy_match_word lower word keyword =
  str_eqb (lower word) (lower keyword)
  || str_contains (lower word) (lower keyword)
  || endings_loop (lower word) (lower keyword) endings
  || ((length keyword <=? 6) && (length word <=? 8)
      && (levenshtein_distance (lower word) (lower keyword) <=? 2)).
Proof.
  unfold fuzzy_match_word.
  destruct (str_eqb _ _), (str_contains _ _), (endings_loop _ _ _),
    ((length keyword <=? 6) && (length word <=? 8)),
    (levenshtein_distance _ _ <=? 2); reflexivity.
Qed.

(** C6: for a keyword of at most 6 characters and a word of at most 8, a
    Levenshtein distance of at most 2 between the lower-cased strings makes
    [fuzzy_match_word] answer true, whatever the other three tests say. *)
Theorem fuzzy_match_word_short_edit_distance
    (lower : str -> str) (word keyword : str) (d : nat) :
  length keyword <= 6 ->
  length word <= 8 ->
  is_levenshtein (lower word) (lower keyword) d ->
  d <= 2 ->
  fuzzy_match_word lower word keyword = true.
Proof.
  intros Hk Hw Hd Hd2. rewrite fuzzy_match_word_unfold.
  apply orb_true_iff. right.
  rewrite (is_levenshtein_unique _ _ _ _
             (levenshtein_distance_correct (lower word) (lower keyword)) Hd).
  rewrite !andb_true_iff, !Nat.leb_le. auto.
Qed.

Lemma fuzzy_match_word_short_edit_distance_witness :
  fuzzy_match_word lower_basic (u "pythom") (u "python") = true.
Proof.
  apply (fuzzy_match_word_short_edit_distance lower_basic
           (u "pythom") (u "python") 1).
  - vm_compute. lia.
  - vm_compute. lia.
  - exact (levenshtein_distance_correct
             (lower_basic (u "pythom")) (lower_basic (u "python"))).
  - lia.
Defined.

(** C7: when the lower-cased strings differ, the keyword does not occur in
    the word, no ending of the list relates them, and the pair is too long
    for the distance test or its Levenshtein distance exceeds 2,
    [fuzzy_match_word] answers false. *)
Theorem fuzzy_match_word_no_relation
    (lower : str -> str) (word keyword : str) :
  lower word <> lower keyword ->
  ~ substring (lower keyword) (lower word) ->
  (forall ending, In ending endings ->
                  ~ suffix_related (lower word) (lower keyword) ending) ->
  (6 < length keyword \/ 8 < length word \/
   exists d, is_levenshtein (lower word) (lower keyword) d /\ 2 < d) ->
  fuzzy_match_word lower word keyword = false.
Proof.
  intros Hne Hsub Hsuf Hdist. rewrite fuzzy_match_word_unfold.
  rewrite !orb_false_iff. repeat split.
  - now apply str_eqb_neq.
  - apply not_true_is_false. now rewrite str_contains_spec.
  - apply not_true_is_false.
    rewrite (endings_loop_spec _ _ _ endings_nonempty).
    intros [e [Hin He]]. exact (Hsuf e Hin He).
  - destruct Hdist as [H | [H | [d [Hd H]]]].
    + replace (length keyword <=? 6) with false; [reflexivity|].
      symmetry. apply Nat.leb_gt. exact H.
    + replace (length word <=? 8) with false;
        [now rewrite andb_false_r|].
      symmetry. apply Nat.leb_gt. exact H.
    + rewrite (is_levenshtein_unique _ _ _ _
                 (levenshtein_distance_correct (lower word) (lower keyword)) Hd).
      replace (d <=? 2) with false; [apply andb_false_r|].
      symmetry. apply Nat.leb_gt. exact H.
Qed.

Lemma fuzzy_match_word_no_relation_witness :
  fuzzy_match_word lower_basic (u "banana") (u "python") = false.
Proof.
  apply (fuzzy_match_word_no_relation lower_basic (u "banana") (u "python")).
  - vm_compute. discriminate.
  - intros H. apply str_contains_spec in H. vm_compute in H. discriminate.
  - intros e Hin Hrel.
    assert (endings_loop (lower_basic (u "banana")) (lower_basic (u "python"))
              endings = true) as H.
    { apply (endings_loop_spec _ _ _ endings_nonempty). eauto. }
    vm_compute in H. discriminate.
  - right. right.
    exists (levenshtein_distance (lower_basic (u "banana")) (lower_basic (u "python"))).
    split; [apply levenshtein_distance_correct | vm_compute; lia].
Defined.

(** *** Sentence extractor *)

(** A relevant sentence is kept when its normalized form has more than ten
    characters, and only then. *)
Lemma extract_step_relevant (lower : str -> str) (is_word : char -> bool)
    (keywords acc : list str) (sentence : str) :
  has_match lower (findall_words is_word (strip (lower sentence))) keywords = true ->
  extract_step lower is_word keywords acc sentence =
  if 11 <=? length (join (u " ") (split_ws sentence))
  then acc ++ [join (u " ") (split_ws sentence)]
  else acc.
Proof.
  intros H. unfold extract_step.
  destruct (strip (lower sentence)) as [|c l] eqn:E.
  - discriminate H.
  - cbn [nonempty negb]. rewrite H.
    destruct (join (u " ") (split_ws sentence)) as [|x clean]; [reflexivity|].
    cbn [nonempty andb]. reflexivity.
Qed.

(** C2: a relevant sentence whose normalized form has exactly ten characters
    is dropped by [extract_relevant_sentences], against the stated minimum
    of ten. *)
Lemma extract_relevant_sentences_ten_characters :
  let text := u "python abc" in
  re_split_sentences (strip text) = [text]
  /\ has_match lower_basic
       (findall_words is_word_basic (strip (lower_basic text))) [u "python"] = true
  /\ length (join (u " ") (split_ws text)) = 10
  /\ extract_relevant_sentences lower_basic is_word_basic text [u "python"] = [].
Proof. vm_compute. repeat split. Qed.

(** *** Stripping *)

Lemma lstrip_head (s : str) :
  lstrip s = [] \/ exists c t, lstrip s = c :: t /\ isspace c = false.
Proof.
  induction s as [|c s IH]; [now left|]. simpl.
  destruct (isspace c) eqn:E; [exact IH|]. right. eauto.
Qed.

Lemma lstrip_nonspace (c : char) (t : str) :
  isspace c = false -> lstrip (c :: t) = c :: t.
Proof. intros H. simpl. now rewrite H. Qed.

Lemma lstrip_idempotent (s : str) : lstrip (lstrip s) = lstrip s.
Proof.
  destruct (lstrip_head s) as [-> | [c [t [-> H]]]]; [reflexivity|].
  now apply lstrip_nonspace.
Qed.

Lemma lstrip_app_nonspace (l r : str) (c : char) :
  isspace c = false -> lstrip (l ++ c :: r) = lstrip l ++ c :: r.
Proof.
  intros H. induction l as [|x l IH]; simpl.
  - now rewrite H.
  - destruct (isspace x); [exact IH | reflexivity].
Qed.

Lemma rstrip_nonspace_head (c : char) (t : str) :
  isspace c = false -> rstrip (c :: t) = c :: rev (lstrip (rev t)).
Proof.
  intros H. unfold rstrip. cbn [rev].
  rewrite lstrip_app_nonspace by exact H.
  now rewrite rev_app_distr.
Qed.

Lemma strip_idempotent (s : str) : strip (strip s) = strip s.
Proof.
  unfold strip.
  assert (lstrip (rstrip (lstrip s)) = rstrip (lstrip s)) as ->.
  { destruct (lstrip_head s) as [-> | [c [t [-> H]]]]; [reflexivity|].
    rewrite rstrip_nonspace_head by exact H. now apply lstrip_nonspace. }
  unfold rstrip. now rewrite rev_involutive, lstrip_idempotent.
Qed.

Lemma in_lstrip (x : char) (s : str) : In x (lstrip s) -> In x s.
Proof.
  induction s as [|c s IH]; simpl; [tauto|].
  destruct (isspace c); [auto | tauto].
Qed.

Lemma in_strip (x : char) (s : str) : In x (strip s) -> In x s.
Proof.
  unfold strip, rstrip. intros H.
  apply in_rev, in_lstrip, in_rev in H. now apply in_lstrip.
Qed.

Lemma lstrip_split (s : str) :
  exists pre, s = pre ++ lstrip s /\ Forall (fun c => isspace c = true) pre.
Proof.
  induction s as [|c s [pre [E H]]].
  - exists []. split; [reflexivity|constructor].
  - cbn [lstrip]. destruct (isspace c) eqn:Ec.
    + exists (c :: pre). split; [cbn [app]; now f_equal|].
      now constructor.
    + exists []. split; [reflexivity|constructor].
Qed.

Lemma rstrip_split (s : str) :
  exists post, s = rstrip s ++ post /\ Forall (fun c => isspace c = true) post.
Proof.
  destruct (lstrip_split (rev s)) as [pre [E H]].
  exists (rev pre). split.
  - unfold rstrip. rewrite <- rev_app_distr, <- E. now rewrite rev_involutive.
  - apply List.Forall_forall. intros c Hin. apply in_rev in Hin.
    exact (proj1 (List.Forall_forall _ _) H c Hin).
Qed.

Lemma rstrip_last (s t : str) (c : char) :
  rstrip s = t ++ [c] -> isspace c = false.
Proof.
  unfold rstrip. intros E.
  assert (lstrip (rev s) = c :: rev t) as E'.
  { rewrite <- (rev_involutive (lstrip (rev s))), E, rev_app_distr.
    reflexivity. }
  destruct (lstrip_head (rev s)) as [E0 | [c0 [t0 [E0 H0]]]];
    rewrite E0 in E'; [discriminate|].
  now injection E' as -> _.
Qed.

Lemma strip_first (s t : str) (c : char) :
  strip s = c :: t -> isspace c = false.
Proof.
  unfold strip. intros E.
  destruct (lstrip_head s) as [E0 | [c0 [t0 [E0 H0]]]]; rewrite E0 in E.
  - discriminate.
  - rewrite rstrip_nonspace_head in E by exact H0. now injection E as <- _.
Qed.

(** [strip] gives the string without its surrounding whitespace. *)
Lemma strip_stripped_of (s : str) : stripped_of s (strip s).
Proof.
  destruct (lstrip_split s) as [pre [E1 H1]].
  destruct (rstrip_split (lstrip s)) as [post [E2 H2]].
  exists pre, post. unfold strip.
  split; [now rewrite <- E2|].
  split; [exact H1|]. split; [exact H2|]. split.
  - intros c t' E. exact (strip_first s t' c E).
  - intros t' c E. exact (rstrip_last (lstrip s) t' c E).
Qed.

Lemma lstrip_whitespace_app (pre x : str) :
  Forall (fun c => isspace c = true) pre -> lstrip (pre ++ x) = lstrip x.
Proof.
  induction 1 as [|c pre Hc _ IH]; [reflexivity|].
  cbn [app lstrip]. now rewrite Hc.
Qed.

Lemma lstrip_stripped (t : str) :
  (forall c t', t = c :: t' -> isspace c = false) -> lstrip t = t.
Proof.
  intros H. destruct t as [|c t']; [reflexivity|].
  apply lstrip_nonspace. now apply (H c t').
Qed.

(** The string without its surrounding whitespace is the one [strip]
    gives: the description leaves no choice. *)
Lemma stripped_of_strip (s t : str) : stripped_of s t -> t = strip s.
Proof.
  intros [pre [post [-> [Hpre [Hpost [Hfirst Hlast]]]]]].
  unfold strip. rewrite lstrip_whitespace_app by exact Hpre.
  destruct t as [|c t'].
  - cbn [app].
    assert (lstrip post = []) as ->.
    { rewrite <- (app_nil_r post), lstrip_whitespace_app by exact Hpost.
      reflexivity. }
    reflexivity.
  - cbn [app]. rewrite lstrip_nonspace by now apply (Hfirst c t').
    change (c :: t' ++ post) with ((c :: t') ++ post).
    unfold rstrip. rewrite rev_app_distr.
    rewrite lstrip_whitespace_app.
    2:{ apply List.Forall_forall. intros x Hin. apply in_rev in Hin.
        exact (proj1 (List.Forall_forall _ _) Hpost x Hin). }
    rewrite lstrip_stripped; [now rewrite rev_involutive|].
    intros x r E. apply (Hlast (rev r) x).
    rewrite <- (rev_involutive (c :: t')), E. reflexivity.
Qed.

(** *** Keyword validation *)

Lemma validate_loop (keywords validated : list str) :
  fold_left validate_step keywords validated =
  validated ++
  map (take 50) (List.filter (fun kw => 2 <=? length kw) (map strip keywords)).
Proof.
  revert validated. induction keywords as [|kw keywords IH]; intros validated.
  - simpl. now rewrite app_nil_r.
  - cbn [fold_left map List.filter]. rewrite IH. unfold validate_step.
    destruct (length (strip kw) <? 2) eqn:E.
    + apply Nat.ltb_lt in E.
      replace (2 <=? length (strip kw)) with false
        by (symmetry; apply Nat.leb_gt; exact E).
      reflexivity.
    + apply Nat.ltb_ge in E.
      replace (2 <=? length (strip kw)) with true
        by (symmetry; apply Nat.leb_le; exact E).
      cbn [map]. rewrite <- app_assoc. cbn [app]. f_equal. f_equal.
      destruct (50 <? length (strip kw)) eqn:E50; [reflexivity|].
      apply Nat.ltb_ge in E50. symmetry. now apply take_ge.
Qed.

(** C10: [validate_keywords] returns at most ten keywords, each of 2 to 50
    characters.  They are made from the input keywords in input order:
    each is taken without its surrounding whitespace (the characters of
    [str.isspace] before its first and after its last other character),
    those then shorter than 2 characters are dropped, each of the others
    is cut to its first 50 characters, and the first ten are returned.  A
    keyword of one character between whitespace is dropped, and a keyword
    of more than 50 characters is kept as its first 50. *)
Theorem validate_keywords_bounds (keywords : list str) :
  length (validate_keywords keywords) <= 10
  /\ Forall (fun kw => 2 <= length kw <= 50) (validate_keywords keywords)
  /\ (exists cores,
        Forall2 stripped_of keywords cores
        /\ validate_keywords keywords =
           take 10 (map (take 50)
                      (List.filter (fun kw => 2 <=? length kw) cores)))
  /\ (forall cores,
        Forall2 stripped_of keywords cores ->
        validate_keywords keywords =
        take 10 (map (take 50)
                   (List.filter (fun kw => 2 <=? length kw) cores)))
  /\ validate_keywords [u " a"; u "  "; u " ab "; 32%N :: repeat 120%N 51]
     = [u "ab"; repeat 120%N 50].
Proof.
  assert (validate_keywords keywords =
          take 10 (map (take 50)
                     (List.filter (fun kw => 2 <=? length kw) (map strip keywords))))
    as E.
  { unfold validate_keywords. destruct keywords as [|kw keywords]; [reflexivity|].
    cbn [nonempty negb]. now rewrite validate_loop. }
  split; [|split; [|split; [|split]]].
  - rewrite E, length_take. lia.
  - rewrite E. apply Forall_take, Forall_forall. intros kw Hin.
    apply list_elem_of_In, in_map_iff in Hin as [kw' [<- Hin]].
    apply filter_In in Hin as [_ Hlen]. apply Nat.leb_le in Hlen.
    rewrite length_take. lia.
  - exists (map strip keywords). split; [|exact E].
    clear E. induction keywords as [|kw keywords IH]; constructor.
    + apply strip_stripped_of.
    + exact IH.
  - intros cores Hcores. rewrite E. do 3 f_equal.
    clear E. induction Hcores as [|kw core keywords cores H _ IH];
      [reflexivity|].
    cbn [map]. f_equal; [|exact IH]. symmetry. now apply stripped_of_strip.
  - vm_compute. reflexivity.
Qed.

Lemma validate_keywords_bounds_witness :
  validate_keywords [u " a"; u " python "]
  = take 10 (map (take 50)
               (List.filter (fun kw => 2 <=? length kw) [u "a"; u "python"])).
Proof.
  apply (proj1 (proj2 (proj2 (proj2
           (validate_keywords_bounds [u " a"; u " python "]))))).
  constructor; [|constructor; [|constructor]].
  - exists (u " "), []. split; [reflexivity|].
    split; [repeat constructor|]. split; [constructor|]. split.
    + intros c t' E. injection E as <- _. reflexivity.
    + intros t' c E. destruct t' as [|x [|y t']]; try discriminate.
      injection E as <-. reflexivity.
  - exists (u " "), (u " "). split; [reflexivity|].
    split; [repeat constructor|]. split; [repeat constructor|]. split.
    + intros c t' E. injection E as <- _. reflexivity.
    + intros t' c E.
      assert (rev (u "python") = rev (t' ++ [c])) as R by now rewrite E.
      rewrite rev_app_distr in R. injection R as <- _. reflexivity.
Defined.

(** *** Search cache *)

Lemma SearchResult_of_item_of_SearchResult (result : SearchResult) :
  SearchResult_of_item (item_of_SearchResult result) = Some result.
Proof. destruct result. vm_compute. reflexivity. Qed.

Lemma results_of_json_items (results : list SearchResult) :
  results_of_json (JArr (map item_of_SearchResult results)) = Some results.
Proof.
  cbn [results_of_json]. induction results as [|result results IH].
  - reflexivity.
  - cbn [map mapM]. rewrite SearchResult_of_item_of_SearchResult, IH.
    reflexivity.
Qed.

(** What a lookup finds right after a write that succeeded, by the age of
    the entry. *)
Lemma load_after_save (t_save now : Q) (cache_key : str)
    (results : list SearchResult) (cache : cache_dir) :
  is_file_name cache_key = true ->
  forallb encodable_result results = true ->
  load_cached_results now cache_key
    (save_cached_results t_save cache_key results cache)
  = if Qle_bool (now - t_save) CACHE_TTL
    then (Some results, save_cached_results t_save cache_key results cache)
    else (None, delete cache_key
                  (save_cached_results t_save cache_key results cache)).
Proof.
  intros Hname Henc.
  unfold load_cached_results, save_cached_results.
  rewrite Hname, Henc. cbn [negb].
  rewrite lookup_insert_eq.
  rewrite lookup_insert_eq. cbn [mbind option_bind json_number].
  destruct (Qle_bool (now - t_save) CACHE_TTL); cbn [negb]; [|reflexivity].
  rewrite lookup_insert_ne by (vm_compute; discriminate).
  rewrite lookup_insert_eq. cbn [mbind option_bind].
  now rewrite results_of_json_items.
Qed.


(** A write under a key that names no file leaves the directory as it
    was. *)
Lemma save_without_file_name (t_save : Q) (cache_key : str)
    (results : list SearchResult) (cache : cache_dir) :
  is_file_name cache_key = false ->
  save_cached_results t_save cache_key results cache = cache.
Proof. intros Hname. unfold save_cached_results. now rewrite Hname. Qed.

(** A write touches the file of its own key only. *)
Lemma save_lookup_other (t_save : Q) (cache_key other : str)
    (results : list SearchResult) (cache : cache_dir) :
  other <> cache_key ->
  save_cached_results t_save cache_key results cache !! other = cache !! other.
Proof.
  intros Hne. unfold save_cached_results.
  destruct (is_file_name cache_key); cbn [negb]; [|reflexivity].
  destruct (forallb encodable_result results);
    now rewrite lookup_insert_ne by congruence.
Qed.




(** C9: an entry written at time [T] (the key names a file and the
    strings of the results are encoded, so that the write is made) and
    looked up later than [T + CACHE_TTL] gives nothing and its file is
    deleted; looked up at a time up to [T + CACHE_TTL] it gives the stored
    results. *)
Theorem load_expiry (T now : Q) (cache_key : str)
    (results : list SearchResult) (cache : cache_dir) :
  is_file_name cache_key = true ->
  forallb encodable_result results = true ->
  let stored := save_cached_results T cache_key results cache in
  ((T + CACHE_TTL < now)%Q ->
   load_cached_results now cache_key stored = (None, delete cache_key stored)
   /\ delete cache_key stored !! cache_key = None)
  /\ ((now <= T + CACHE_TTL)%Q ->
      load_cached_results now cache_key stored = (Some results, stored)).
Proof.
  intros Hname Henc stored. unfold stored.
  rewrite load_after_save by assumption. split.
  - intros H. split; [|apply lookup_delete_eq].
    destruct (Qle_bool (now - T) CACHE_TTL) eqn:E; [|reflexivity].
    apply Qle_bool_iff in E. lra.
  - intros H.
    assert (Qle_bool (now - T) CACHE_TTL = true) as E
      by (apply Qle_bool_iff; lra).
    now rewrite E.
Qed.

Lemma load_expiry_witness :
  let results := [mkSearchResult (u "Demo") 7 (u "01.02.24 10:00")
                    (u "Python is here now.") dash] in
  let stored := save_cached_results 1000 (u "key") results ∅ in
  (load_cached_results 4601 (u "key") stored = (None, delete (u "key") stored)
   /\ delete (u "key") stored !! u "key" = None)
  /\ load_cached_results 4600 (u "key") stored = (Some results, stored).
Proof.
  intros results stored.
  assert (is_file_name (u "key") = true) as Hname by (vm_compute; reflexivity).
  assert (forallb encodable_result results = true) as Henc
    by (vm_compute; reflexivity).
  split.
  - apply (proj1 (load_expiry 1000 4601 (u "key") results ∅ Hname Henc)).
    vm_compute. reflexivity.
  - apply (proj2 (load_expiry 1000 4600 (u "key") results ∅ Hname Henc)).
    vm_compute. discriminate.
Defined.

(** *** Result formatter *)

Lemma fold_left_append {A} (step : str -> A -> str) (entry : A -> str)
    (l : list A) (response : str) :
  (forall response x, step response x = response ++ entry x) ->
  fold_left step l response = response ++ concat (map entry l).
Proof.
  intros Hstep. revert response.
  induction l as [|x l IH]; intros response; simpl.
  - now rewrite app_nil_r.
  - now rewrite IH, Hstep, app_assoc.
Qed.

Lemma slice_index_nonneg (n i : Z) : (0 <= n -> 0 <= slice_index n i)%Z.
Proof.
  unfold slice_index. destruct (i <? 0)%Z eqn:E; [lia|].
  apply Z.ltb_ge in E. lia.
Qed.

Lemma py_slice_from_start {A} (l : list A) (start stop : Z) :
  (0 <= start)%Z -> (start <= stop)%Z ->
  py_slice l start stop = take (Z.to_nat (stop - start)) (drop (Z.to_nat start) l).
Proof.
  intros H0 H1. unfold py_slice, slice_index, len.
  replace (start <? 0)%Z with false by (symmetry; apply Z.ltb_ge; lia).
  replace (stop <? 0)%Z with false by (symmetry; apply Z.ltb_ge; lia).
  destruct (Z.le_gt_cases (Z.of_nat (length l)) start) as [Hge | Hlt].
  - rewrite !drop_ge by lia. now rewrite !take_nil.
  - rewrite (Z.min_l start) by lia.
    destruct (Z.le_gt_cases stop (Z.of_nat (length l))) as [Hin | Hout].
    + now rewrite (Z.min_l stop) by lia.
    + rewrite (Z.min_r stop) by lia.
      rewrite !take_ge by (rewrite length_drop; lia). reflexivity.
Qed.

Lemma py_slice_to_zero {A} (l : list A) (start : Z) : py_slice l start 0 = [].
Proof.
  unfold py_slice.
  pose proof (slice_index_nonneg (len l) start). unfold len in *.
  replace (slice_index (Z.of_nat (length l)) 0) with 0%Z
    by (unfold slice_index; simpl; lia).
  replace (Z.to_nat (0 - slice_index (Z.of_nat (length l)) start)) with 0 by lia.
  apply take_0.
Qed.

Lemma format_search_results_rendered (results : list SearchResult)
    (page per_page : Z) (use_table : bool) :
  results <> [] ->
  format_search_results results page per_page use_table =
  rendered results page per_page use_table
    (py_slice results ((page - 1) * per_page) ((page - 1) * per_page + per_page)).
Proof.
  intros Hne. destruct results as [|result results]; [congruence|].
  unfold format_search_results, rendered, render_page.
  unfold format_search_results_as_table, format_search_results_as_text.
  cbn [nonempty negb].
  destruct use_table.
  - apply fold_left_append. now intros response [i shown].
  - apply fold_left_append. now intros response [i shown].
Qed.

Lemma rendered_not_no_matches (results : list SearchResult) (page per_page : Z)
    (use_table : bool) (page_results : list SearchResult) :
  rendered results page per_page use_table page_results <> no_matches_message.
Proof.
  unfold rendered, render_page. intros H.
  apply (f_equal (hd 0%N)) in H. destruct use_table; discriminate H.
Qed.

(** C4 (amended): for a non-empty result list and [per_page >= 0] the page
    shows the entries of the Python slice from [(page-1)*per_page] to
    [(page-1)*per_page + per_page], numbered from [(page-1)*per_page + 1];
    for [page >= 1] these are the entries at the positions from
    [(page-1)*per_page] on, at most [per_page] of them; page 0 and every
    page past the last show no entry; the message for no matches is
    returned for the empty list only. *)
Theorem format_search_results_pages (results : list SearchResult)
    (page per_page : Z) (use_table : bool) :
  results <> [] ->
  (0 <= per_page)%Z ->
  let start := ((page - 1) * per_page)%Z in
  format_search_results results page per_page use_table
  = rendered results page per_page use_table
      (py_slice results start (start + per_page))
  /\ ((1 <= page)%Z ->
      format_search_results results page per_page use_table
      = rendered results page per_page use_table
          (take (Z.to_nat per_page) (drop (Z.to_nat start) results)))
  /\ (page = 0%Z \/ (len results <= start)%Z ->
      format_search_results results page per_page use_table
      = rendered results page per_page use_table [])
  /\ format_search_results results page per_page use_table <> no_matches_message
  /\ format_search_results [] page per_page use_table = no_matches_message.
Proof.
  intros Hne Hpp start.
  pose proof (format_search_results_rendered results page per_page use_table Hne)
    as E. fold start in E.
  split; [exact E|]. split; [|split; [|split]].
  - intros Hpage. rewrite E. f_equal.
    rewrite py_slice_from_start by (unfold start; nia).
    f_equal. f_equal. lia.
  - intros [-> | Hpast]; rewrite E; f_equal.
    + unfold start. replace ((0 - 1) * per_page + per_page)%Z with 0%Z by lia.
      apply py_slice_to_zero.
    + assert (0 <= start)%Z by (unfold len in Hpast; lia).
      rewrite py_slice_from_start by lia.
      rewrite drop_ge by (unfold len in Hpast; lia). apply take_nil.
  - rewrite E. apply rendered_not_no_matches.
  - now destruct use_table.
Qed.

Lemma format_search_results_pages_witness :
  format_search_results twelve_results 3 5 false
  = rendered twelve_results 3 5 false [sample_result 11; sample_result 12]
  /\ format_search_results twelve_results 4 5 false
     = rendered twelve_results 4 5 false [].
Proof.
  split.
  - apply (format_search_results_pages twelve_results 3 5 false);
      [discriminate | lia | lia].
  - apply (format_search_results_pages twelve_results 4 5 false);
      [discriminate | lia |].
    right. vm_compute. discriminate.
Defined.

(** C4 as stated fails on a negative page: with twelve results and five per
    page, page -1 shows the third to the seventh result, not an empty
    page. *)
Lemma format_search_results_negative_page :
  format_search_results twelve_results (-1) 5 false
  = rendered twelve_results (-1) 5 false
      (map sample_result [3; 4; 5; 6; 7]%Z)
  /\ format_search_results twelve_results (-1) 5 false
     <> rendered twelve_results (-1) 5 false [].
Proof. vm_compute. split; [reflexivity | discriminate]. Qed.

(** *** Channel searcher *)

Section SearcherProperties.

Variable lower : str -> str.
Variable is_word : char -> bool.
Variable get_cache_key : list str -> list str -> Z -> str.

Let process := process_message lower is_word.
Let scan := scan_messages lower is_word.
Let channels_loop := search_channels lower is_word.

Lemma len_app_one {A} (l : list A) (x : A) : len (l ++ [x]) = (len l + 1)%Z.
Proof. unfold len. rewrite length_app. simpl. lia. Qed.

(** The message loop entered below the limit ends at the limit at most. *)
Lemma scan_messages_length (kws : list str) (limit : Z) (lt ct : str)
    (ms : list message) (results : list SearchResult) :
  (len results < limit)%Z ->
  (len (fst (scan kws limit lt ct ms results)) <= limit)%Z.
Proof.
  unfold scan. revert results.
  induction ms as [|m ms IH]; intros results Hlt; cbn [scan_messages].
  - simpl. lia.
  - destruct (process_message lower is_word kws lt ct m) as [[result|]|ex].
    + destruct (len (results ++ [result]) >=? limit)%Z eqn:E.
      * simpl. rewrite len_app_one. lia.
      * specialize (IH (results ++ [result])).
        destruct (scan_messages lower is_word kws limit lt ct ms
                    (results ++ [result])) as [rs tr].
        simpl in *. apply IH. lia.
    + specialize (IH results Hlt).
      destruct (scan_messages lower is_word kws limit lt ct ms results)
        as [rs tr]. exact IH.
    + simpl. lia.
Qed.

Lemma search_channels_length (cl : client) (kws : list str)
    (limit per_channel_limit : Z) (channels : list str)
    (results rs : list SearchResult) (tr : list event) :
  (len results <= limit)%Z ->
  channels_loop cl kws limit per_channel_limit channels results = (Ok rs, tr) ->
  (len rs <= limit)%Z.
Proof.
  unfold channels_loop. revert results rs tr.
  induction channels as [|channel channels IH]; intros results rs tr Hle H;
    cbn [search_channels] in H.
  - injection H as <- _. exact Hle.
  - destruct (len results >=? limit)%Z eqn:E.
    + injection H as <- _. exact Hle.
    + destruct (get_entity cl channel) as [e| |].
      * unfold scan_channel in H.
        pose proof (scan_messages_length kws limit (link_template_of e)
                      (channel_title_of channel e)
                      (take (Z.to_nat per_channel_limit) (iter_messages cl e))
                      results ltac:(lia)) as Hscan.
        unfold scan in Hscan.
        destruct (scan_messages lower is_word kws limit (link_template_of e)
                    (channel_title_of channel e)
                    (take (Z.to_nat per_channel_limit) (iter_messages cl e))
                    results) as [results' tr1].
        destruct (search_channels lower is_word cl kws limit per_channel_limit
                    channels results') as [r tr2] eqn:Erest.
        injection H as -> _. exact (IH _ _ _ Hscan Erest).
      * destruct (search_channels lower is_word cl kws limit per_channel_limit
                    channels results) as [r tr2] eqn:Erest.
        injection H as -> _. exact (IH _ _ _ Hle Erest).
      * discriminate H.
Qed.

(** Once the limit is reached, channels that follow change nothing: the
    loop returns the same results after the same calls. *)
Lemma search_channels_stops (cl : client) (kws : list str)
    (limit per_channel_limit : Z) (chs1 chs2 : list str)
    (results rs : list SearchResult) (tr : list event) :
  channels_loop cl kws limit per_channel_limit chs1 results = (Ok rs, tr) ->
  (limit <= len rs)%Z ->
  channels_loop cl kws limit per_channel_limit (chs1 ++ chs2) results = (Ok rs, tr).
Proof.
  unfold channels_loop. revert results rs tr.
  induction chs1 as [|channel chs1 IH]; intros results rs tr H Hfull;
    cbn [search_channels app] in *.
  - injection H as <- <-. destruct chs2 as [|channel chs2]; [reflexivity|].
    cbn [search_channels].
    replace (len results >=? limit)%Z with true; [reflexivity|].
    symmetry. apply Z.geb_le. exact Hfull.
  - destruct (len results >=? limit)%Z; [exact H|].
    destruct (get_entity cl channel) as [e| |].
    + destruct (scan_channel lower is_word cl kws limit per_channel_limit
                  channel e results) as [results' tr1].
      destruct (search_channels lower is_word cl kws limit per_channel_limit
                  chs1 results') as [r tr2] eqn:Erest.
      injection H as -> <-. now rewrite (IH _ _ _ Erest Hfull).
    + destruct (search_channels lower is_word cl kws limit per_channel_limit
                  chs1 results) as [r tr2] eqn:Erest.
      injection H as -> <-. now rewrite (IH _ _ _ Erest Hfull).
    + discriminate H.
Qed.

(** A result carries the channel title and the identifier of its message. *)
Lemma process_message_key (kws : list str) (lt ct : str) (m : message)
    (result : SearchResult) :
  process kws lt ct m = Ok (Some result) -> result_key result = (ct, id m).
Proof.
  unfold process, process_message. intros H.
  destruct (negb (nonempty (default [] (message_text m)))); [discriminate|].
  destruct (negb (nonempty _)); [discriminate|].
  destruct (message_date m); [|discriminate].
  injection H as <-. reflexivity.
Qed.

(** The message loop appends to the results, in the order of the messages. *)
Lemma scan_messages_order (kws : list str) (limit : Z) (lt ct : str)
    (ms : list message) (results : list SearchResult) :
  exists new,
    fst (scan kws limit lt ct ms results) = results ++ new
    /\ sublist (map result_key new) (map (fun m => (ct, id m)) ms).
Proof.
  unfold scan. revert results.
  induction ms as [|m ms IH]; intros results; cbn [scan_messages map].
  - exists []. split; [now rewrite app_nil_r | constructor].
  - destruct (process_message lower is_word kws lt ct m) as [[result|]|ex] eqn:E.
    + apply process_message_key in E.
      destruct (len (results ++ [result]) >=? limit)%Z.
      * exists [result]. split; [reflexivity|].
        cbn [map]. rewrite E. apply sublist_skip, sublist_nil_l.
      * destruct (IH (results ++ [result])) as [new [Hnew Hsub]].
        destruct (scan_messages lower is_word kws limit lt ct ms
                    (results ++ [result])) as [rs tr].
        exists (result :: new). split.
        -- simpl in *. now rewrite Hnew, <- app_assoc.
        -- cbn [map]. rewrite E. now apply sublist_skip.
    + destruct (IH results) as [new [Hnew Hsub]].
      destruct (scan_messages lower is_word kws limit lt ct ms results)
        as [rs tr].
      exists new. split; [exact Hnew | now apply sublist_cons].
    + exists []. split; [now rewrite app_nil_r | apply sublist_nil_l].
Qed.

(** The channel loop appends the results channel by channel. *)
Lemma search_channels_order (cl : client) (kws : list str)
    (limit per_channel_limit : Z) (channels : list str)
    (results rs : list SearchResult) (tr : list event) :
  channels_loop cl kws limit per_channel_limit channels results = (Ok rs, tr) ->
  exists new,
    rs = results ++ new
    /\ sublist (map result_key new)
         (flat_map (candidates cl per_channel_limit) channels).
Proof.
  unfold channels_loop. revert results rs tr.
  induction channels as [|channel channels IH]; intros results rs tr H;
    cbn [search_channels flat_map] in *.
  - injection H as <- _. exists []. split; [now rewrite app_nil_r | constructor].
  - destruct (len results >=? limit)%Z.
    + injection H as <- _. exists [].
      split; [now rewrite app_nil_r | apply sublist_nil_l].
    + unfold candidates at 1. destruct (get_entity cl channel) as [e| |].
      * unfold scan_channel in H.
        destruct (scan_messages_order kws limit (link_template_of e)
                    (channel_title_of channel e)
                    (take (Z.to_nat per_channel_limit) (iter_messages cl e))
                    results) as [new1 [Hnew1 Hsub1]].
        unfold scan in Hnew1.
        destruct (scan_messages lower is_word kws limit (link_template_of e)
                    (channel_title_of channel e)
                    (take (Z.to_nat per_channel_limit) (iter_messages cl e))
                    results) as [results' tr1].
        destruct (search_channels lower is_word cl kws limit per_channel_limit
                    channels results') as [r tr2] eqn:Erest.
        injection H as -> _.
        destruct (IH _ _ _ Erest) as [new2 [-> Hsub2]].
        simpl in Hnew1. subst results'.
        exists (new1 ++ new2). split; [now rewrite app_assoc|].
        rewrite map_app. now apply sublist_app.
      * destruct (search_channels lower is_word cl kws limit per_channel_limit
                    channels results) as [r tr2] eqn:Erest.
        injection H as -> _.
        destruct (IH _ _ _ Erest) as [new [-> Hsub]].
        exists new. split; [reflexivity | exact Hsub].
      * discriminate H.
Qed.

(** A message whose processing raises ends the message loop: what follows
    it is not read. *)
Lemma scan_messages_raise (kws : list str) (limit : Z) (lt ct : str)
    (ms1 ms2 : list message) (m : message) (ex : exn)
    (results : list SearchResult) :
  process kws lt ct m = Raise ex ->
  scan kws limit lt ct (ms1 ++ m :: ms2) results
  = scan kws limit lt ct (ms1 ++ [m]) results
  /\ fst (scan kws limit lt ct (ms1 ++ [m]) results)
     = fst (scan kws limit lt ct ms1 results).
Proof.
  unfold process, scan. intros Hm. revert results.
  induction ms1 as [|m1 ms1 IH]; intros results; cbn [app scan_messages].
  - rewrite Hm. split; reflexivity.
  - destruct (process_message lower is_word kws lt ct m1) as [[result|]|ex1].
    + destruct (len (results ++ [result]) >=? limit)%Z; [split; reflexivity|].
      destruct (IH (results ++ [result])) as [-> E].
      destruct (scan_messages lower is_word kws limit lt ct (ms1 ++ [m])
                  (results ++ [result])) as [rs tr].
      destruct (scan_messages lower is_word kws limit lt ct ms1
                  (results ++ [result])) as [rs' tr'].
      split; [reflexivity | exact E].
    + destruct (IH results) as [-> E].
      destruct (scan_messages lower is_word kws limit lt ct (ms1 ++ [m]) results)
        as [rs tr].
      destruct (scan_messages lower is_word kws limit lt ct ms1 results)
        as [rs' tr'].
      split; [reflexivity | exact E].
    + split; reflexivity.
Qed.

Lemma ensure_telethon_connected_available (g : globals) (cl : client) :
  ensure_telethon_connected g = Ok cl -> TELETHON_AVAILABLE g = true.
Proof.
  unfold ensure_telethon_connected.
  destruct (TELETHON_AVAILABLE g); [reflexivity | discriminate].
Qed.

Lemma ensure_telethon_connected_unusable (g : globals) :
  TELETHON_AVAILABLE g = true -> client_unusable g ->
  exists e, ensure_telethon_connected g = Raise e.
Proof.
  unfold ensure_telethon_connected, client_unusable. intros -> H. cbn [negb].
  destruct H as [-> | [cl [-> [[-> ->] | Hauth]]]]; [eauto | eauto |].
  rewrite Hauth. cbn [negb]. destruct (negb (is_connected cl) && connect_raises cl); eauto.
Qed.

(** A search that does not answer from the cache, by the answer of the
    connection check. *)
Lemma search_channel_messages_fresh (g : globals) (t_load t_save : Q)
    (cache : cache_dir) (channels keywords : list str) (limit : Z)
    (force_refresh : bool) :
  TELETHON_AVAILABLE g = true ->
  force_refresh = true
  \/ fst (load_cached_results t_load (get_cache_key channels keywords limit) cache)
     = None ->
  search_channel_messages lower is_word get_cache_key g t_load t_save cache
    channels keywords limit force_refresh
  = let cache_key := get_cache_key channels keywords limit in
    let cache1 := cache_after_lookup t_load cache_key cache force_refresh in
    match ensure_telethon_connected g with
    | Raise e => (Raise e, cache1, [])
    | Ok cl =>
        match search_channels lower is_word cl (map lower keywords) limit
                (Z.max 50 (limit * 2)) channels [] with
        | (Raise e, tr) => (Raise e, cache1, tr)
        | (Ok results, tr) =>
            (Ok results, save_cached_results t_save cache_key results cache1, tr)
        end
    end.
Proof.
  intros Hav Hmiss. unfold search_channel_messages, cache_after_lookup.
  rewrite Hav. cbn [negb].
  destruct force_refresh; cbn [negb].
  - reflexivity.
  - destruct Hmiss as [Hf | Hmiss]; [discriminate|].
    destruct (load_cached_results t_load (get_cache_key channels keywords limit)
                cache) as [cached cache1].
    simpl in Hmiss. subst cached. reflexivity.
Qed.

(** C1 (amended): on a search that does not answer from the cache, when the
    client library is available and the client was not created, cannot be
    connected or is not authorized, the search raises the error of the
    connection check and returns no list; when the library is not available
    the search returns the empty list without an error. *)
Theorem search_without_usable_client (g : globals) (t_load t_save : Q)
    (cache : cache_dir) (channels keywords : list str) (limit : Z)
    (force_refresh : bool) :
  force_refresh = true
  \/ fst (load_cached_results t_load (get_cache_key channels keywords limit) cache)
     = None ->
  client_unusable g ->
  (TELETHON_AVAILABLE g = true ->
   exists e cache',
     ensure_telethon_connected g = Raise e
     /\ search_channel_messages lower is_word get_cache_key g t_load t_save cache
          channels keywords limit force_refresh = (Raise e, cache', []))
  /\ (TELETHON_AVAILABLE g = false ->
      search_channel_messages lower is_word get_cache_key g t_load t_save cache
        channels keywords limit force_refresh = (Ok [], cache, [])).
Proof.
  intros Hmiss Hbad. split.
  - intros Hav.
    destruct (ensure_telethon_connected_unusable g Hav Hbad) as [e He].
    exists e. eexists. split; [exact He|].
    rewrite search_channel_messages_fresh by assumption.
    cbv zeta. rewrite He. reflexivity.
  - intros Hav. unfold search_channel_messages. now rewrite Hav.
Qed.

(** C3 (amended): a processing error on one message of a channel ends the
    scan of that channel: the results gathered before that message are
    kept, the messages after it are not read, and the search goes on with
    the next channel. *)
Theorem processing_error_ends_channel (cl : client) (kws : list str)
    (limit per_channel_limit : Z) (channel : str) (channels : list str)
    (results : list SearchResult) (e : entity) (ms1 ms2 : list message)
    (m : message) (ex : exn) :
  (len results < limit)%Z ->
  get_entity cl channel = Found e ->
  take (Z.to_nat per_channel_limit) (iter_messages cl e) = ms1 ++ m :: ms2 ->
  process_message lower is_word kws (link_template_of e)
    (channel_title_of channel e) m = Raise ex ->
  let scanned :=
    scan_messages lower is_word kws limit (link_template_of e)
      (channel_title_of channel e) (ms1 ++ [m]) results in
  let rest :=
    search_channels lower is_word cl kws limit per_channel_limit channels
      (fst scanned) in
  search_channels lower is_word cl kws limit per_channel_limit
    (channel :: channels) results
  = (fst rest, GetEntity channel :: IterMessages e per_channel_limit
                 :: snd scanned ++ snd rest)
  /\ fst scanned
     = fst (scan_messages lower is_word kws limit (link_template_of e)
              (channel_title_of channel e) ms1 results).
Proof.
  intros Hlt Hent Hms Hm scanned rest.
  destruct (scan_messages_raise kws limit (link_template_of e)
              (channel_title_of channel e) ms1 ms2 m ex results Hm) as [E1 E2].
  unfold scan in E1, E2. split; [|exact E2].
  cbn [search_channels].
  replace (len results >=? limit)%Z with false
    by (symmetry; rewrite Z.geb_leb; apply Z.leb_gt; exact Hlt).
  rewrite Hent. unfold scan_channel. rewrite Hms, E1. fold scanned.
  destruct scanned as [results' tr1] eqn:Es. cbn [fst snd] in *.
  unfold rest. cbn [fst].
  destruct (search_channels lower is_word cl kws limit per_channel_limit
              channels results') as [r tr2].
  reflexivity.
Qed.

(** C5 (amended): for a limit of zero or more, a search that does not
    answer from the cache returns at most [limit] results; when the
    channels of a prefix of the list already give [limit] results, it
    returns what the loop over that prefix returns after the same calls on
    the client, so that no later channel is resolved or read; and its
    results follow the order of the channels and, within a channel, the
    order in which the client yields the messages.  A search that answers
    from the cache returns the stored list as it is and makes no call on
    the client. *)
Theorem search_respects_limit (g : globals) (t_load t_save : Q)
    (cache : cache_dir) (channels keywords : list str) (limit : Z)
    (force_refresh : bool) (rs : list SearchResult) (cache' : cache_dir)
    (tr : list event) :
  (0 <= limit)%Z ->
  search_channel_messages lower is_word get_cache_key g t_load t_save cache
    channels keywords limit force_refresh = (Ok rs, cache', tr) ->
  (force_refresh = true
   \/ fst (load_cached_results t_load (get_cache_key channels keywords limit)
             cache) = None ->
   (len rs <= limit)%Z
   /\ (TELETHON_AVAILABLE g = false -> rs = [] /\ tr = [])
   /\ (TELETHON_AVAILABLE g = true ->
       exists cl,
         ensure_telethon_connected g = Ok cl
         /\ (forall chs1 chs2 rs1 tr1,
               channels = chs1 ++ chs2 ->
               search_channels lower is_word cl (map lower keywords) limit
                 (Z.max 50 (limit * 2)) chs1 [] = (Ok rs1, tr1) ->
               (limit <= len rs1)%Z ->
               rs = rs1 /\ tr = tr1)
         /\ sublist (map result_key rs)
              (flat_map (candidates cl (Z.max 50 (limit * 2))) channels)))
  /\ (forall cached,
        TELETHON_AVAILABLE g = true ->
        force_refresh = false ->
        fst (load_cached_results t_load (get_cache_key channels keywords limit)
               cache) = Some cached ->
        rs = cached /\ tr = []).
Proof.
  intros Hlimit Hsearch. split.
  - intros Hmiss.
    destruct (TELETHON_AVAILABLE g) eqn:Hav.
    + rewrite search_channel_messages_fresh in Hsearch by assumption.
      cbv zeta in Hsearch.
      destruct (ensure_telethon_connected g) as [cl|e]; [|discriminate].
      destruct (search_channels lower is_word cl (map lower keywords) limit
                  (Z.max 50 (limit * 2)) channels []) as [[rs0|e] tr0] eqn:E;
        [|discriminate].
      injection Hsearch as <- _ <-.
      split; [|split; [discriminate|]].
      * exact (search_channels_length cl _ _ _ _ [] rs0 tr0 Hlimit E).
      * intros _. exists cl. split; [reflexivity|]. split.
        -- intros chs1 chs2 rs1 tr1 -> H1 Hfull.
           pose proof (search_channels_stops cl _ _ _ chs1 chs2 [] rs1 tr1 H1
                         Hfull) as E'.
           unfold channels_loop in E'. rewrite E in E'.
           now injection E' as -> ->.
        -- destruct (search_channels_order cl _ _ _ _ [] rs0 tr0 E)
             as [new [-> Hsub]].
           exact Hsub.
    + unfold search_channel_messages in Hsearch. rewrite Hav in Hsearch.
      cbn [negb] in Hsearch. injection Hsearch as <- _ <-.
      split; [exact Hlimit|]. split; [now split|discriminate].
  - intros cached Hav -> Hhit.
    unfold search_channel_messages in Hsearch. rewrite Hav in Hsearch.
    cbn [negb] in Hsearch.
    destruct (load_cached_results t_load (get_cache_key channels keywords limit)
                cache) as [cached0 cache1].
    cbn [fst] in Hhit. subst cached0.
    now injection Hsearch as <- _ <-.
Qed.

End SearcherProperties.

Lemma search_without_usable_client_witness :
  exists e cache',
    ensure_telethon_connected (mkGlobals true (Some unauthorized_client)) = Raise e
    /\ demo_search (mkGlobals true (Some unauthorized_client)) [u "@demo"] 5
       = (Raise e, cache', []).
Proof.
  apply (search_without_usable_client lower_basic is_word_basic sample_key
           (mkGlobals true (Some unauthorized_client)) 0 1 ∅
           [u "@demo"] [u "Python"] 5 true).
  - left. reflexivity.
  - right. exists unauthorized_client. split; [reflexivity|].
    right. reflexivity.
  - reflexivity.
Defined.

(** C1 as stated fails when the client library is not available: the
    search returns the empty list and raises nothing.  A client that is
    only disconnected is connected by the search, which then returns its
    results. *)
Lemma search_library_unavailable :
  demo_search (mkGlobals false None) [u "@demo"] 5 = (Ok [], ∅, [])
  /\ fst (fst (demo_search
                 (mkGlobals true (Some (demo_client two_messages false)))
                 [u "@demo"] 5))
     = Ok [demo_result 3 (u "Python is here now.");
           demo_result 1 (u "Learning python is fun.")].
Proof. vm_compute. split; reflexivity. Qed.

Lemma processing_error_ends_channel_witness :
  search_channels lower_basic is_word_basic (demo_client three_messages true)
    [u "python"] 5 50 [u "@demo"] []
  = (Ok [demo_result 3 (u "Python is here now.")],
     [GetEntity (u "@demo"); IterMessages demo_entity 50;
      NextMessage 3; NextMessage 2]).
Proof.
  pose proof (processing_error_ends_channel lower_basic is_word_basic
                (demo_client three_messages true) [u "python"] 5 50
                (u "@demo") [] [] demo_entity
                [demo_message 3 (u "Python is here now.")]
                [demo_message 1 (u "Learning python is fun.")]
                (undated_message 2 (u "More about python today."))
                AttributeError) as H.
  destruct H as [E _].
  - vm_compute. reflexivity.
  - reflexivity.
  - reflexivity.
  - vm_compute. reflexivity.
  - rewrite E. vm_compute. reflexivity.
Defined.

(** C3 as stated fails: the second of three messages raises while its
    result is built, and the third message, which gives a result when the
    second is absent, is not returned. *)
Lemma processing_error_drops_later_messages :
  process_message lower_basic is_word_basic [u "python"]
    (link_template_of demo_entity) (channel_title_of (u "@demo") demo_entity)
    (undated_message 2 (u "More about python today.")) = Raise AttributeError
  /\ fst (fst (demo_search
                 (mkGlobals true (Some (demo_client three_messages true)))
                 [u "@demo"] 5))
     = Ok [demo_result 3 (u "Python is here now.")]
  /\ fst (fst (demo_search
                 (mkGlobals true (Some (demo_client two_messages true)))
                 [u "@demo"] 5))
     = Ok [demo_result 3 (u "Python is here now.");
           demo_result 1 (u "Learning python is fun.")].
Proof. vm_compute. repeat split. Qed.

Lemma search_respects_limit_witness :
  let run := demo_search (mkGlobals true (Some (demo_client two_messages true)))
               [u "@demo"; u "@demo"] 2 in
  (len (results_of (fst (fst run))) <= 2)%Z.
Proof.
  intros run.
  assert (run = (Ok (results_of (fst (fst run))), snd (fst run), snd run)) as E
    by (vm_compute; reflexivity).
  assert (0 <= 2)%Z as Hlimit by lia.
  apply (proj1 (search_respects_limit lower_basic is_word_basic sample_key
                  (mkGlobals true (Some (demo_client two_messages true))) 0 1 ∅
                  [u "@demo"; u "@demo"] [u "Python"] 2 true
                  (results_of (fst (fst run))) (snd (fst run)) (snd run)
                  Hlimit E)).
  left. reflexivity.
Defined.

(** C5 as stated fails for a search that answers from the cache: the key
    sorts the channels, so the search of [@a; @b] finds the entry that the
    search of [@b; @a] wrote and returns the result of channel B before
    that of channel A, where channel order puts A first, as the same search
    does when it reads the channels. *)
Lemma search_cached_order :
  let g := mkGlobals true (Some two_channel_client) in
  let search := search_channel_messages lower_basic is_word_basic
                  (get_cache_key sample_key) g in
  let first := search 0%Q 1%Q ∅ [u "@b"; u "@a"] [u "Python"] 5%Z false in
  get_cache_key sample_key [u "@a"; u "@b"] [u "Python"] 5%Z
  = get_cache_key sample_key [u "@b"; u "@a"] [u "Python"] 5%Z
  /\ fst (fst first) = Ok [result_b; result_a]
  /\ search 2%Q 3%Q (snd (fst first)) [u "@a"; u "@b"] [u "Python"] 5%Z false
     = (Ok [result_b; result_a], snd (fst first), [])
  /\ ~ sublist (map result_key [result_b; result_a])
         (flat_map (candidates two_channel_client 50) [u "@a"; u "@b"])
  /\ fst (fst (search 2%Q 3%Q (snd (fst first)) [u "@a"; u "@b"] [u "Python"] 5%Z true))
     = Ok [result_a; result_b].
Proof.
  intros g search first.
  split; [vm_compute; reflexivity|].
  split; [vm_compute; reflexivity|].
  split; [vm_compute; reflexivity|].
  split; [|vm_compute; reflexivity].
  intros H. vm_compute in H.
  repeat match goal with
         | H : sublist _ _ |- _ => inversion H; clear H; subst
         end.
Qed.

(** The same holds whatever the digest is, as long as it names a file:
    the two calls differ in the order of the channels only, and the key is
    made from the sorted channels. *)
Lemma cached_order_for_any_digest
    (digest : list str -> list str -> Z -> str) :
  is_file_name (digest [u "@a"; u "@b"] [u "Python"] 5%Z) = true ->
  let g := mkGlobals true (Some two_channel_client) in
  let search := search_channel_messages lower_basic is_word_basic
                  (get_cache_key digest) g in
  let first := search 0%Q 1%Q ∅ [u "@b"; u "@a"] [u "Python"] 5%Z false in
  fst (fst first) = Ok [result_b; result_a]
  /\ search 2%Q 3%Q (snd (fst first)) [u "@a"; u "@b"] [u "Python"] 5%Z false
     = (Ok [result_b; result_a], snd (fst first), []).
Proof.
  intros Hname g search first.
  assert (first
          = (Ok [result_b; result_a],
             save_cached_results 1 (digest [u "@a"; u "@b"] [u "Python"] 5%Z)
               [result_b; result_a] ∅,
             snd first)) as E.
  { unfold first, search.
    rewrite search_channel_messages_fresh;
      [|reflexivity|right; unfold load_cached_results; now rewrite lookup_empty].
    cbv zeta.
    change (ensure_telethon_connected g) with (Ok two_channel_client).
    destruct (search_channels lower_basic is_word_basic two_channel_client
                (map lower_basic [u "Python"]) 5 (Z.max 50 (5 * 2))
                [u "@b"; u "@a"] []) as [r tr] eqn:Es.
    vm_compute in Es. injection Es as <- <-.
    unfold cache_after_lookup, load_cached_results. cbn [negb].
    rewrite lookup_empty. reflexivity. }
  rewrite E. cbn [fst snd]. split; [reflexivity|].
  unfold search, search_channel_messages. cbn [TELETHON_AVAILABLE g negb].
  change (get_cache_key digest [u "@a"; u "@b"] [u "Python"] 5%Z)
    with (digest [u "@a"; u "@b"] [u "Python"] 5%Z).
  rewrite load_after_save; [|exact Hname|vm_compute; reflexivity].
  reflexivity.
Qed.

(** ** Further properties of the search core *)

(** *** Fuzzy matcher and edit distance *)

(** X1: [fuzzy_match_word] answers true exactly when one of its four tests
    holds: equal lower-cased strings, the keyword inside the word, an ending
    of the list relating them, or a short pair at Levenshtein distance at
    most 2. *)
Theorem fuzzy_match_word_iff (lower : str -> str) (word keyword : str) :
  fuzzy_match_word lower word keyword = true <->
  lower word = lower keyword
  \/ substring (lower keyword) (lower word)
  \/ (exists ending, In ending endings
                     /\ suffix_related (lower word) (lower keyword) ending)
  \/ (length keyword <= 6 /\ length word <= 8
      /\ exists d, is_levenshtein (lower word) (lower keyword) d /\ d <= 2).
Proof.
  rewrite fuzzy_match_word_unfold, !orb_true_iff, !andb_true_iff.
  rewrite str_eqb_eq, str_contains_spec, !Nat.leb_le.
  rewrite (endings_loop_spec _ _ _ endings_nonempty).
  pose proof (levenshtein_distance_correct (lower word) (lower keyword)) as Hd.
  split.
  - intros [[[H | H] | H] | [[Hk Hw] H]]; auto.
    right. right. right. eauto.
  - intros [H | [H | [H | [Hk [Hw [d [Hd' H]]]]]]]; auto.
    right. rewrite (is_levenshtein_unique _ _ _ _ Hd Hd'). auto.
Qed.

(** X2: [levenshtein_distance] returns the cost of a cheapest edit script
    between its arguments, in whichever order they are given. *)
Theorem levenshtein_distance_cheapest_script (s1 s2 : str) :
  edits s1 s2 (levenshtein_distance s1 s2)
  /\ (forall n, edits s1 s2 n -> levenshtein_distance s1 s2 <= n)
  /\ levenshtein_distance s1 s2 = lev s1 s2.
Proof.
  pose proof (levenshtein_distance_correct s1 s2) as H.
  split; [apply H | split; [apply H|]].
  exact (is_levenshtein_unique _ _ _ _ H (lev_is_levenshtein s1 s2)).
Qed.

Lemma edits_zero (s t : str) (n : nat) : edits s t n -> n = 0 -> s = t.
Proof.
  induction 1 as [|c s t n _ IH| | |]; intros Hn; try discriminate.
  - reflexivity.
  - now rewrite IH.
Qed.

Lemma edits_lengths (s t : str) (n : nat) :
  edits s t n -> length s <= length t + n /\ length t <= length s + n.
Proof. induction 1; simpl; lia. Qed.

Lemma edits_max (s t : str) : edits s t (Nat.max (length s) (length t)).
Proof.
  revert t. induction s as [|c s IH]; intros t.
  - apply edits_nil_l.
  - destruct t as [|d t].
    + apply edits_nil_r.
    + simpl. apply edits_subst, IH.
Qed.

(** Edit scripts compose. *)
Lemma edits_trans (t u : str) (m : nat) :
  edits t u m ->
  forall s n, edits s t n -> exists k, k <= n + m /\ edits s u k.
Proof.
  induction 1 as [|c t u m H2 IH|c d t u m H2 IH|d t u m H2 IH|c t u m H2 IH];
    intros s n H1.
  - exists n. split; [lia | exact H1].
  - remember (c :: t) as ct eqn:Ect. revert c t u m H2 IH Ect.
    induction H1 as [|a s t' n H1 _|a b s t' n H1 _|b s t' n H1 _|a s t' n H1 IH1];
      intros c t u m H2 IH Ect; try discriminate.
    + injection Ect as -> ->.
      destruct (IH _ _ H1) as [k [Hk Hs]]. exists k. split; [lia|].
      now apply edits_keep.
    + injection Ect as -> ->.
      destruct (IH _ _ H1) as [k [Hk Hs]]. exists (S k). split; [lia|].
      now apply edits_subst.
    + injection Ect as -> ->.
      destruct (IH _ _ H1) as [k [Hk Hs]]. exists (S k). split; [lia|].
      now apply edits_insert.
    + destruct (IH1 _ _ _ _ H2 IH Ect) as [k [Hk Hs]].
      exists (S k). split; [lia|]. now apply edits_delete.
  - remember (c :: t) as ct eqn:Ect. revert c t u m H2 IH Ect.
    induction H1 as [|a s t' n H1 _|a b s t' n H1 _|b s t' n H1 _|a s t' n H1 IH1];
      intros c t u m H2 IH Ect; try discriminate.
    + injection Ect as -> ->.
      destruct (IH _ _ H1) as [k [Hk Hs]]. exists (S k). split; [lia|].
      now apply edits_subst.
    + injection Ect as -> ->.
      destruct (IH _ _ H1) as [k [Hk Hs]]. exists (S k). split; [lia|].
      now apply edits_subst.
    + injection Ect as -> ->.
      destruct (IH _ _ H1) as [k [Hk Hs]]. exists (S k). split; [lia|].
      now apply edits_insert.
    + destruct (IH1 _ _ _ _ H2 IH Ect) as [k [Hk Hs]].
      exists (S k). split; [lia|]. now apply edits_delete.
  - destruct (IH _ _ H1) as [k [Hk Hs]]. exists (S k). split; [lia|].
    now apply edits_insert.
  - remember (c :: t) as ct eqn:Ect. revert c t u m H2 IH Ect.
    induction H1 as [|a s t' n H1 _|a b s t' n H1 _|b s t' n H1 _|a s t' n H1 IH1];
      intros c t u m H2 IH Ect; try discriminate.
    + injection Ect as -> ->.
      destruct (IH _ _ H1) as [k [Hk Hs]]. exists (S k). split; [lia|].
      now apply edits_delete.
    + injection Ect as -> ->.
      destruct (IH _ _ H1) as [k [Hk Hs]]. exists (S k). split; [lia|].
      now apply edits_delete.
    + injection Ect as -> ->.
      destruct (IH _ _ H1) as [k [Hk Hs]]. exists k. split; [lia|].
      exact Hs.
    + destruct (IH1 _ _ _ _ H2 IH Ect) as [k [Hk Hs]].
      exists (S k). split; [lia|]. now apply edits_delete.
Qed.

(** X3: [levenshtein_distance] is a metric on strings: it is symmetric, it
    is zero exactly between equal strings, and it obeys the triangle
    inequality. *)
Theorem levenshtein_distance_metric (s t w : str) :
  levenshtein_distance s t = levenshtein_distance t s
  /\ (levenshtein_distance s t = 0 <-> s = t)
  /\ levenshtein_distance s w
     <= levenshtein_distance s t + levenshtein_distance t w.
Proof.
  pose proof (levenshtein_distance_correct s t) as [Hst Hst'].
  pose proof (levenshtein_distance_correct t w) as [Htw _].
  pose proof (levenshtein_distance_correct s w) as [_ Hsw'].
  split; [|split].
  - apply (is_levenshtein_unique s t).
    + apply levenshtein_distance_correct.
    + apply is_levenshtein_sym, levenshtein_distance_correct.
  - split.
    + intros E. exact (edits_zero _ _ _ Hst E).
    + intros <-. pose proof (Hst' 0 (edits_refl s)). lia.
  - destruct (edits_trans _ _ _ Htw _ _ Hst) as [k [Hk Hs]].
    apply Hsw' in Hs. lia.
Qed.

(** X4: the distance lies between the difference of the lengths and the
    length of the longer string. *)
Theorem levenshtein_distance_bounds (s t : str) :
  length s - length t <= levenshtein_distance s t
  /\ length t - length s <= levenshtein_distance s t
  /\ levenshtein_distance s t <= Nat.max (length s) (length t).
Proof.
  pose proof (levenshtein_distance_correct s t) as [H H'].
  apply edits_lengths in H. pose proof (H' _ (edits_max s t)). lia.
Qed.

(** *** Sentence extractor *)

Lemma extract_loop (lower : str -> str) (is_word : char -> bool)
    (keywords sentences acc : list str) :
  fold_left (extract_step lower is_word keywords) sentences acc
  = acc ++ List.filter (fun clean => 10 <? length clean)
             (map normalize_ws
                (List.filter (relevant lower is_word keywords) sentences)).
Proof.
  revert acc. induction sentences as [|sentence sentences IH]; intros acc.
  - simpl. now rewrite app_nil_r.
  - cbn [fold_left List.filter]. rewrite IH. unfold relevant at 2.
    destruct (has_match lower (findall_words is_word (strip (lower sentence)))
                keywords) eqn:E.
    + rewrite (extract_step_relevant _ _ _ _ _ E). cbn [map List.filter].
      fold (normalize_ws sentence).
      destruct (length (normalize_ws sentence)) as [|n] eqn:El.
      * reflexivity.
      * change (11 <=? S n) with (10 <=? n). change (10 <? S n) with (10 <=? n).
        destruct (10 <=? n); [|reflexivity].
        now rewrite <- app_assoc.
    + unfold extract_step.
      destruct (nonempty (strip (lower sentence))); cbn [negb]; [|reflexivity].
      now rewrite E.
Qed.

(** X5: [extract_relevant_sentences] returns, in the order of the text, the
    normalized forms of the relevant sentences that are longer than 10
    characters, and nothing for an empty text or an empty keyword list. *)
Theorem extract_relevant_sentences_filter (lower : str -> str)
    (is_word : char -> bool) (text : str) (keywords : list str) :
  extract_relevant_sentences lower is_word text keywords
  = (if nonempty text && nonempty keywords then
       List.filter (fun clean => 10 <? length clean)
         (map normalize_ws
            (List.filter (relevant lower is_word keywords)
               (re_split_sentences (strip text))))
     else [])
  /\ Forall (fun clean => 10 < length clean)
       (extract_relevant_sentences lower is_word text keywords)
  /\ length (extract_relevant_sentences lower is_word text keywords)
     <= length (re_split_sentences (strip text)).
Proof.
  assert (extract_relevant_sentences lower is_word text keywords
          = if nonempty text && nonempty keywords then
              List.filter (fun clean => 10 <? length clean)
                (map normalize_ws
                   (List.filter (relevant lower is_word keywords)
                      (re_split_sentences (strip text))))
            else []) as E.
  { unfold extract_relevant_sentences.
    destruct (nonempty text), (nonempty keywords); cbn [negb orb andb];
      try reflexivity.
    now rewrite extract_loop. }
  split; [exact E|]. rewrite E.
  destruct (nonempty text && nonempty keywords).
  - split.
    + apply List.Forall_forall. intros clean Hin.
      apply filter_In in Hin as [_ Hlen]. now apply Nat.ltb_lt.
    + etransitivity; [apply List.filter_length_le|].
      rewrite length_map. apply List.filter_length_le.
  - split; [constructor | simpl; lia].
Qed.

Lemma runs_word (p : char -> bool) (w cur rest : str) :
  forallb p w = true -> runs p cur (w ++ rest) = runs p (cur ++ w) rest.
Proof.
  revert cur. induction w as [|c w IH]; intros cur H; simpl in *.
  - now rewrite app_nil_r.
  - apply andb_true_iff in H as [Hc Hw]. rewrite Hc, IH by exact Hw.
    now rewrite <- app_assoc.
Qed.

Lemma runs_words (p : char -> bool) (s cur : str) :
  forallb p cur = true ->
  Forall (fun w => w <> [] /\ forallb p w = true) (runs p cur s).
Proof.
  revert cur. induction s as [|c s IH]; intros cur Hcur; simpl.
  - destruct cur; constructor; [split; [discriminate | exact Hcur] | constructor].
  - destruct (p c) eqn:Hc.
    + apply IH. rewrite forallb_app, Hcur. simpl. now rewrite Hc.
    + destruct cur as [|x cur].
      * now apply IH.
      * constructor; [split; [discriminate | exact Hcur] | now apply IH].
Qed.

Lemma split_ws_join (ws : list str) :
  Forall (fun w => w <> [] /\ forallb (fun c => negb (isspace c)) w = true) ws ->
  split_ws (join (u " ") ws) = ws.
Proof.
  unfold split_ws. induction 1 as [|x ws [Hne Hx] Hws IH].
  - reflexivity.
  - destruct ws as [|y ws].
    + cbn [join].
      pose proof (runs_word (fun c => negb (isspace c)) x [] [] Hx) as E.
      rewrite app_nil_r in E. rewrite E. cbn [app runs].
      destruct x; [congruence | reflexivity].
    + change (join (u " ") (x :: y :: ws))
        with (x ++ 32%N :: join (u " ") (y :: ws)).
      rewrite runs_word by exact Hx.
      cbn [runs]. change (negb (isspace 32%N)) with false. cbn [app].
      destruct x as [|c x]; [congruence|]. now rewrite IH.
Qed.

(** X6: normalizing the whitespace of a sentence keeps its words, and
    normalizing a second time changes nothing. *)
Theorem normalize_ws_idempotent (s : str) :
  split_ws (normalize_ws s) = split_ws s
  /\ normalize_ws (normalize_ws s) = normalize_ws s.
Proof.
  assert (split_ws (normalize_ws s) = split_ws s) as E.
  { unfold normalize_ws. apply split_ws_join. unfold split_ws.
    now apply runs_words. }
  split; [exact E|]. unfold normalize_ws at 1. now rewrite E.
Qed.

Lemma extract_relevant_sentences_long (lower : str -> str)
    (is_word : char -> bool) (text : str) (keywords : list str) :
  Forall (fun clean => 10 < length clean)
    (extract_relevant_sentences lower is_word text keywords).
Proof.
  unfold extract_relevant_sentences.
  destruct (negb (nonempty text) || negb (nonempty keywords)); [constructor|].
  rewrite extract_loop. cbn [app].
  apply List.Forall_forall. intros clean Hin.
  apply filter_In in Hin as [_ Hlen]. now apply Nat.ltb_lt.
Qed.

(** *** Results of a search *)

Lemma join_length_ge (sep x : str) (l : list str) :
  length x <= length (join sep (x :: l)).
Proof. destruct l; cbn [join]; [lia | rewrite length_app; lia]. Qed.

Lemma link_template_of_shape (e : entity) :
  link_template_of e = []
  \/ exists name, name <> [] /\ link_template_of e = u "https://t.me/" ++ name.
Proof.
  unfold link_template_of. destruct (username e) as [[|c name]|]; cbn [nonempty].
  - now left.
  - right. exists (c :: name). split; [discriminate | reflexivity].
  - now left.
Qed.

Section SearcherFurther.

Variable lower : str -> str.
Variable is_word : char -> bool.
Variable get_cache_key : list str -> list str -> Z -> str.

Lemma process_message_well_formed (kws : list str) (e : entity) (ct : str)
    (m : message) (result : SearchResult) :
  process_message lower is_word kws (link_template_of e) ct m = Ok (Some result) ->
  well_formed_result result.
Proof.
  unfold process_message. intros H.
  destruct (negb (nonempty (default [] (message_text m)))); [discriminate|].
  pose proof (extract_relevant_sentences_long lower is_word
                (default [] (message_text m)) kws) as Hlong.
  destruct (extract_relevant_sentences lower is_word
              (default [] (message_text m)) kws) as [|x rel]; [discriminate|].
  cbn [nonempty negb] in H.
  apply Forall_cons in Hlong as [Hx _].
  pose proof (join_length_ge (u " ") x (take 2 rel)) as Hj.
  change (x :: take 2 rel) with (take 3 (x :: rel)) in Hj.
  remember (join (u " ") (take 3 (x :: rel))) as sn eqn:Esn. clear Esn.
  destruct (message_date m) as [formatted|]; [|discriminate].
  injection H as <-. unfold well_formed_result. split.
  - change (snippet (mkSearchResult ?c ?i ?d ?sn' ?l)) with sn'.
    destruct (200 <? length sn) eqn:E.
    + apply Nat.ltb_lt in E.
      rewrite length_app, length_take. change (length (u "...")) with 3. lia.
    + apply Nat.ltb_ge in E. lia.
  - change (link (mkSearchResult ?c ?i ?d ?sn' ?l)) with l.
    change (message_id (mkSearchResult ?c ?i ?d ?sn' ?l)) with i.
    destruct (link_template_of_shape e) as [-> | [name [Hne ->]]].
    + left. reflexivity.
    + right. exists name. split; [exact Hne|].
      destruct name as [|c name]; [congruence|].
      change (nonempty (u "https://t.me/" ++ c :: name)) with true.
      cbv iota. now rewrite <- app_assoc.
Qed.

Lemma scan_messages_invariant (P : SearchResult -> Prop) (kws : list str)
    (limit : Z) (lt ct : str) (ms : list message) (results : list SearchResult) :
  (forall m result,
     process_message lower is_word kws lt ct m = Ok (Some result) -> P result) ->
  Forall P results ->
  Forall P (fst (scan_messages lower is_word kws limit lt ct ms results)).
Proof.
  intros Hstep. revert results.
  induction ms as [|m ms IH]; intros results Hres; cbn [scan_messages].
  - exact Hres.
  - destruct (process_message lower is_word kws lt ct m) as [[result|]|ex] eqn:E.
    + assert (Forall P (results ++ [result])) as Hres'.
      { apply Forall_app. split; [exact Hres|]. constructor; eauto. }
      destruct (len (results ++ [result]) >=? limit)%Z; [exact Hres'|].
      specialize (IH _ Hres').
      now destruct (scan_messages lower is_word kws limit lt ct ms
                      (results ++ [result])).
    + specialize (IH _ Hres).
      now destruct (scan_messages lower is_word kws limit lt ct ms results).
    + exact Hres.
Qed.

Lemma search_channels_invariant (P : SearchResult -> Prop) (cl : client)
    (kws : list str) (limit per_channel_limit : Z) (channels : list str)
    (results rs : list SearchResult) (tr : list event) :
  (forall e ct m result,
     process_message lower is_word kws (link_template_of e) ct m
     = Ok (Some result) -> P result) ->
  Forall P results ->
  search_channels lower is_word cl kws limit per_channel_limit channels results
  = (Ok rs, tr) ->
  Forall P rs.
Proof.
  intros Hstep. revert results rs tr.
  induction channels as [|channel channels IH]; intros results rs tr Hres H;
    cbn [search_channels] in H.
  - now injection H as <- _.
  - destruct (len results >=? limit)%Z; [now injection H as <- _|].
    destruct (get_entity cl channel) as [e| |].
    + unfold scan_channel in H.
      pose proof (scan_messages_invariant P kws limit (link_template_of e)
                    (channel_title_of channel e)
                    (take (Z.to_nat per_channel_limit) (iter_messages cl e))
                    results (Hstep e _) Hres) as Hscan.
      destruct (scan_messages lower is_word kws limit (link_template_of e)
                  (channel_title_of channel e)
                  (take (Z.to_nat per_channel_limit) (iter_messages cl e))
                  results) as [results' tr1].
      destruct (search_channels lower is_word cl kws limit per_channel_limit
                  channels results') as [r tr2] eqn:Erest.
      injection H as -> _. exact (IH _ _ _ Hscan Erest).
    + destruct (search_channels lower is_word cl kws limit per_channel_limit
                  channels results) as [r tr2] eqn:Erest.
      injection H as -> _. exact (IH _ _ _ Hres Erest).
    + discriminate H.
Qed.

(** X7: every result of a search that does not answer from the cache has a
    snippet of more than 10 and at most 200 characters, and a link that is
    the sentinel or the address of its message under a public user name. *)
Theorem search_results_well_formed (g : globals) (t_load t_save : Q)
    (cache : cache_dir) (channels keywords : list str) (limit : Z)
    (force_refresh : bool) (rs : list SearchResult) (cache' : cache_dir)
    (tr : list event) :
  force_refresh = true
  \/ fst (load_cached_results t_load (get_cache_key channels keywords limit) cache)
     = None ->
  search_channel_messages lower is_word get_cache_key g t_load t_save cache
    channels keywords limit force_refresh = (Ok rs, cache', tr) ->
  Forall well_formed_result rs.
Proof.
  intros Hmiss H. destruct (TELETHON_AVAILABLE g) eqn:Hav.
  - rewrite search_channel_messages_fresh in H by assumption. cbv zeta in H.
    destruct (ensure_telethon_connected g) as [cl|e]; [|discriminate].
    destruct (search_channels lower is_word cl (map lower keywords) limit
                (Z.max 50 (limit * 2)) channels []) as [[rs0|e] tr0] eqn:E;
      [|discriminate].
    injection H as <- _ _.
    apply (search_channels_invariant well_formed_result _ _ _ _ _ _ _ _
             (fun e ct m result => process_message_well_formed _ e ct m result)
             (List.Forall_nil _) E).
  - unfold search_channel_messages in H. rewrite Hav in H.
    injection H as <- _ _. constructor.
Qed.

Lemma search_channels_full (cl : client) (kws : list str)
    (limit per_channel_limit : Z) (channels : list str)
    (results : list SearchResult) :
  (limit <= len results)%Z ->
  search_channels lower is_word cl kws limit per_channel_limit channels results
  = (Ok results, []).
Proof.
  intros H. destruct channels; cbn [search_channels]; [reflexivity|].
  replace (len results >=? limit)%Z with true; [reflexivity|].
  symmetry. now apply Z.geb_le.
Qed.

(** X8: a channel that cannot be resolved (the lookup raises [RPCError]) is
    skipped: the search returns what it returns without that channel. *)
Theorem unresolved_channel_skipped (cl : client) (kws : list str)
    (limit per_channel_limit : Z) (chs1 chs2 : list str) (channel : str)
    (results : list SearchResult) :
  get_entity cl channel = LookupRPCError ->
  fst (search_channels lower is_word cl kws limit per_channel_limit
         (chs1 ++ channel :: chs2) results)
  = fst (search_channels lower is_word cl kws limit per_channel_limit
           (chs1 ++ chs2) results).
Proof.
  intros Hrpc. revert results.
  induction chs1 as [|ch chs1 IH]; intros results; cbn [app search_channels].
  - destruct (len results >=? limit)%Z eqn:E.
    + apply Z.geb_le in E. now rewrite search_channels_full.
    + rewrite Hrpc.
      now destruct (search_channels lower is_word cl kws limit
                      per_channel_limit chs2 results).
  - destruct (len results >=? limit)%Z; [reflexivity|].
    destruct (get_entity cl ch) as [e| |]; [| |reflexivity].
    + destruct (scan_channel lower is_word cl kws limit per_channel_limit
                  ch e results) as [results' tr1].
      specialize (IH results').
      destruct (search_channels lower is_word cl kws limit per_channel_limit
                  (chs1 ++ channel :: chs2) results').
      destruct (search_channels lower is_word cl kws limit per_channel_limit
                  (chs1 ++ chs2) results').
      exact IH.
    + specialize (IH results).
      destruct (search_channels lower is_word cl kws limit per_channel_limit
                  (chs1 ++ channel :: chs2) results).
      destruct (search_channels lower is_word cl kws limit per_channel_limit
                  (chs1 ++ chs2) results).
      exact IH.
Qed.

Lemma load_cached_results_other_key (now : Q) (cache_key other : str)
    (cache : cache_dir) :
  other <> cache_key ->
  snd (load_cached_results now cache_key cache) !! other = cache !! other.
Proof.
  intros Hne. unfold load_cached_results.
  destruct (cache !! cache_key) as [[|[| | | | | |d]]|]; try reflexivity.
  destruct (d !! u "timestamp" ≫= json_number) as [ts|]; [|reflexivity].
  destruct (negb (Qle_bool (now - ts) CACHE_TTL)).
  - cbn [snd]. now apply lookup_delete_ne.
  - now destruct (d !! u "results" ≫= results_of_json).
Qed.

(** X9: a search reads and writes the cache file of its own key only: the
    file of every other key is left as it was, whatever the search
    returns. *)
Theorem search_touches_own_key_only (g : globals) (t_load t_save : Q)
    (cache : cache_dir) (channels keywords : list str) (limit : Z)
    (force_refresh : bool) (other : str) :
  other <> get_cache_key channels keywords limit ->
  snd (fst (search_channel_messages lower is_word get_cache_key g t_load t_save
              cache channels keywords limit force_refresh)) !! other
  = cache !! other.
Proof.
  intros Hne. unfold search_channel_messages.
  destruct (TELETHON_AVAILABLE g); cbn [negb]; [|reflexivity].
  assert (forall cache1 : cache_dir,
            cache1 !! other = cache !! other ->
            snd (fst (match ensure_telethon_connected g with
                      | Ok cl =>
                          match search_channels lower is_word cl
                                  (map lower keywords) limit
                                  (Z.max 50 (limit * 2)) channels [] with
                          | (Ok results, tr) =>
                              (Ok results,
                               save_cached_results t_save
                                 (get_cache_key channels keywords limit)
                                 results cache1, tr)
                          | (Raise e, tr) => (Raise e, cache1, tr)
                          end
                      | Raise e => (Raise e, cache1, [])
                      end)) !! other = cache !! other) as Hfresh.
  { intros cache1 H1.
    destruct (ensure_telethon_connected g) as [cl|e]; [|exact H1].
    destruct (search_channels lower is_word cl (map lower keywords) limit
                (Z.max 50 (limit * 2)) channels []) as [[rs|e] tr];
      [|exact H1].
    cbn [fst snd]. rewrite save_lookup_other by exact Hne. exact H1. }
  destruct force_refresh; cbn [negb].
  - now apply Hfresh.
  - pose proof (load_cached_results_other_key t_load
                  (get_cache_key channels keywords limit) other cache Hne) as Hl.
    destruct (load_cached_results t_load (get_cache_key channels keywords limit)
                cache) as [[cached|] cache1]; cbn [snd] in Hl.
    + exact Hl.
    + now apply Hfresh.
Qed.

(** X10: what a search found and wrote to the cache (its key names a file
    and the strings of its results are encoded) is answered from the cache
    afterwards: the same search asked again without forced refresh, while
    the entry is within its time to live, returns the same results, makes
    no call on the client and leaves the cache directory as it is. *)
Theorem search_answered_from_cache (g g' : globals) (t_load t_save t2 t3 : Q)
    (cache : cache_dir) (channels keywords : list str) (limit : Z)
    (force_refresh : bool) (rs : list SearchResult) (cache' : cache_dir)
    (tr : list event) :
  TELETHON_AVAILABLE g = true ->
  TELETHON_AVAILABLE g' = true ->
  force_refresh = true
  \/ fst (load_cached_results t_load (get_cache_key channels keywords limit) cache)
     = None ->
  search_channel_messages lower is_word get_cache_key g t_load t_save cache
    channels keywords limit force_refresh = (Ok rs, cache', tr) ->
  is_file_name (get_cache_key channels keywords limit) = true ->
  forallb encodable_result rs = true ->
  (t2 - t_save <= CACHE_TTL)%Q ->
  search_channel_messages lower is_word get_cache_key g' t2 t3 cache'
    channels keywords limit false = (Ok rs, cache', []).
Proof.
  intros Hav Hav' Hmiss H Hname Henc Hfresh.
  rewrite search_channel_messages_fresh in H by assumption. cbv zeta in H.
  destruct (ensure_telethon_connected g) as [cl|e]; [|discriminate].
  destruct (search_channels lower is_word cl (map lower keywords) limit
              (Z.max 50 (limit * 2)) channels []) as [[rs0|e] tr0];
    [|discriminate].
  injection H as <- <- _.
  unfold search_channel_messages. rewrite Hav'. cbn [negb].
  rewrite load_after_save by assumption.
  apply Qle_bool_iff in Hfresh. now rewrite Hfresh.
Qed.

End SearcherFurther.

(** *** Search cache *)

(** X11: writing the results of one key changes neither what a lookup of
    another key answers nor the file of that other key. *)
Theorem save_leaves_other_keys (t_save now : Q) (cache_key other : str)
    (results : list SearchResult) (cache : cache_dir) :
  other <> cache_key ->
  save_cached_results t_save cache_key results cache !! other = cache !! other
  /\ fst (load_cached_results now other
            (save_cached_results t_save cache_key results cache))
     = fst (load_cached_results now other cache).
Proof.
  intros Hne.
  assert (save_cached_results t_save cache_key results cache !! other
          = cache !! other) as E
    by now apply save_lookup_other.
  split; [exact E|]. unfold load_cached_results. rewrite E.
  destruct (cache !! other) as [[|[| | | | | |d]]|]; try reflexivity.
  destruct (d !! u "timestamp" ≫= json_number) as [ts|]; [|reflexivity].
  destruct (negb (Qle_bool (now - ts) CACHE_TTL)); [reflexivity|].
  now destruct (d !! u "results" ≫= results_of_json).
Qed.


(** X13: a lookup never answers from a missing or unreadable file, never
    answers an entry older than the time to live, and changes the cache
    directory only by deleting the file of its key when it answers
    nothing. *)
Theorem load_cached_results_misses (now : Q) (cache_key : str)
    (cache : cache_dir) :
  (cache !! cache_key = None \/ cache !! cache_key = Some Unreadable ->
   load_cached_results now cache_key cache = (None, cache))
  /\ (forall results,
        fst (load_cached_results now cache_key cache) = Some results ->
        snd (load_cached_results now cache_key cache) = cache
        /\ exists d timestamp,
             cache !! cache_key = Some (Holds (JObj d))
             /\ d !! u "timestamp" ≫= json_number = Some timestamp
             /\ (now - timestamp <= CACHE_TTL)%Q)
  /\ (snd (load_cached_results now cache_key cache) = cache
      \/ load_cached_results now cache_key cache
         = (None, delete cache_key cache)).
Proof.
  unfold load_cached_results. split; [|split].
  - intros [-> | ->]; reflexivity.
  - intros results H.
    destruct (cache !! cache_key) as [[|[| | | | | |d]]|]; try discriminate H.
    destruct (d !! u "timestamp" ≫= json_number) as [ts|] eqn:Ets;
      [|discriminate H].
    destruct (Qle_bool (now - ts) CACHE_TTL) eqn:E; cbn [negb] in *;
      [|discriminate H].
    destruct (d !! u "results" ≫= results_of_json); [|discriminate H].
    split; [reflexivity|]. exists d, ts.
    split; [reflexivity|]. split; [exact Ets|]. now apply Qle_bool_iff.
  - destruct (cache !! cache_key) as [[|[| | | | | |d]]|]; try (now left).
    destruct (d !! u "timestamp" ≫= json_number) as [ts|]; [|now left].
    destruct (negb (Qle_bool (now - ts) CACHE_TTL)); [now right|].
    destruct (d !! u "results" ≫= results_of_json); now left.
Qed.

(** *** Pages *)

(** X14: whatever the bounds, negative ones included, the slice is a
    contiguous part of the list. *)
Theorem py_slice_segment {A} (l : list A) (start stop : Z) :
  exists before after, l = before ++ py_slice l start stop ++ after.
Proof.
  unfold py_slice.
  exists (take (Z.to_nat (slice_index (len l) start)) l).
  exists (drop (Z.to_nat (slice_index (len l) stop - slice_index (len l) start))
            (drop (Z.to_nat (slice_index (len l) start)) l)).
  now rewrite !take_drop.
Qed.

Lemma page_of_from_one {A} (results : list A) (per_page page : Z) :
  (0 <= per_page)%Z -> (1 <= page)%Z ->
  page_of results per_page page
  = take (Z.to_nat per_page) (drop (Z.to_nat ((page - 1) * per_page)) results).
Proof.
  intros Hpp Hp. unfold page_of. rewrite py_slice_from_start by nia.
  f_equal. f_equal. lia.
Qed.

Lemma take_app_drop {A} (n m : nat) (l : list A) :
  take n l ++ take m (drop n l) = take (n + m) l.
Proof.
  revert l. induction n as [|n IH]; intros l; [reflexivity|].
  destruct l as [|x l]; simpl.
  - now rewrite take_nil.
  - now rewrite IH.
Qed.

Lemma pages_from_take {A} (results : list A) (per_page first : Z) (count : nat) :
  (0 <= per_page)%Z -> (1 <= first)%Z ->
  pages_from results per_page first count
  = take (count * Z.to_nat per_page)
      (drop (Z.to_nat ((first - 1) * per_page)) results).
Proof.
  intros Hpp. revert first. induction count as [|count IH]; intros first Hf.
  - reflexivity.
  - cbn [pages_from]. rewrite page_of_from_one, IH by lia.
    replace (Z.to_nat ((first + 1 - 1) * per_page))
      with (Z.to_nat ((first - 1) * per_page) + Z.to_nat per_page) by nia.
    rewrite <- drop_drop. rewrite take_app_drop. f_equal.
Qed.

Lemma total_pages_bounds (n per_page : Z) :
  (0 < per_page)%Z -> (0 <= n)%Z ->
  let total_pages := ((n + per_page - 1) / per_page)%Z in
  (n <= total_pages * per_page)%Z
  /\ ((total_pages - 1) * per_page < n \/ n = 0 /\ total_pages = 0)%Z.
Proof.
  intros Hpp Hn total_pages.
  pose proof (Z.div_mod (n + per_page - 1) per_page ltac:(lia)) as E.
  pose proof (Z.mod_pos_bound (n + per_page - 1) per_page Hpp) as Hr.
  fold total_pages in E.
  destruct (Z.eq_dec n 0%Z) as [Hn0 | Hn0].
  - assert (total_pages = 0)%Z; [|lia].
    unfold total_pages. apply Z.div_small. lia.
  - split; [nia | left; nia].
Qed.

(** X15: with [per_page > 0] the pages 1 to
    [(total + per_page - 1) // per_page], the page count of the keyboard,
    put one after the other give back the result list; each of them shows
    at least one result, and every later page shows none. *)
Theorem pages_partition {A} (results : list A) (per_page : Z) :
  (0 < per_page)%Z ->
  let total_pages := ((len results + per_page - 1) / per_page)%Z in
  pages_from results per_page 1 (Z.to_nat total_pages) = results
  /\ (forall page, (1 <= page <= total_pages)%Z ->
                   page_of results per_page page <> [])
  /\ (forall page, (total_pages < page)%Z -> page_of results per_page page = []).
Proof.
  intros Hpp total_pages.
  destruct (total_pages_bounds (len results) per_page Hpp
              ltac:(unfold len; lia)) as [Hup Hlow].
  fold total_pages in Hup, Hlow. unfold len in *.
  assert (0 <= total_pages)%Z as Htp
    by (apply Z.div_pos; lia).
  split; [|split].
  - rewrite pages_from_take by lia. simpl Z.to_nat. rewrite drop_0.
    apply take_ge. nia.
  - intros page Hpage. rewrite page_of_from_one by lia.
    destruct Hlow as [Hlow | [_ H0]]; [|lia].
    intros E. apply (f_equal length) in E.
    rewrite length_take, length_drop in E. simpl in E. nia.
  - intros page Hpage. rewrite page_of_from_one by lia.
    rewrite drop_ge by nia. apply take_nil.
Qed.

Lemma N_of_ascii_inj (a b : ascii) : N_of_ascii a = N_of_ascii b -> a = b.
Proof.
  intros H. rewrite <- (ascii_N_embedding a), <- (ascii_N_embedding b).
  now rewrite H.
Qed.

Lemma to_int_not_nil (z : Z) :
  Z.to_int z <> Decimal.Pos Decimal.Nil /\ Z.to_int z <> Decimal.Neg Decimal.Nil.
Proof.
  destruct z as [|p|p]; simpl; split; try discriminate;
    intros H; injection H as H;
    exact (DecimalPos.Unsigned.to_uint_nonnil p H).
Qed.

(** The decimal text determines the integer. *)
Lemma str_of_Z_inj (z z' : Z) : str_of_Z z = str_of_Z z' -> z = z'.
Proof.
  unfold str_of_Z. intros H.
  assert (forall l l' : list ascii,
            map N_of_ascii l = map N_of_ascii l' -> l = l') as Hmap.
  { induction l as [|a l IH]; intros [|a' l'] E; try discriminate E.
    - reflexivity.
    - injection E as Ea El. f_equal; [now apply N_of_ascii_inj | now apply IH]. }
  apply Hmap in H.
  apply (f_equal string_of_list_ascii) in H.
  rewrite !string_of_list_ascii_of_string in H.
  apply (f_equal NilZero.int_of_string) in H.
  destruct (to_int_not_nil z), (to_int_not_nil z').
  rewrite !NilZero.isi in H by assumption.
  injection H as H. now apply DecimalZ.to_int_inj.
Qed.

Lemma page_in_range_shown {A} (results : list A) (per_page page : Z) :
  (0 < per_page)%Z ->
  (1 <= page <= (len results + per_page - 1) / per_page)%Z ->
  page_of results per_page page <> [].
Proof.
  intros Hpp Hpage.
  destruct (total_pages_bounds (len results) per_page Hpp
              ltac:(unfold len; lia)) as [_ Hlow].
  cbv zeta in Hlow. unfold len in *.
  rewrite page_of_from_one by lia.
  destruct Hlow as [Hlow | [_ H0]]; [|lia].
  intros E. apply (f_equal length) in E.
  rewrite length_take, length_drop in E. simpl in E. nia.
Qed.

Lemma concat_adjust (n : nat) (row buttons : list button) :
  concat (adjust n row buttons) = row ++ buttons.
Proof.
  revert row. induction buttons as [|b buttons IH]; intros row; cbn [adjust].
  - destruct row; simpl; [reflexivity | now rewrite !app_nil_r].
  - destruct (length row + 1 =? n).
    + cbn [concat]. rewrite IH. now rewrite <- app_assoc.
    + rewrite IH. now rewrite <- app_assoc.
Qed.

Lemma page_callback_inj (page page' : Z) (request_timestamp : str) :
  page_callback page request_timestamp = page_callback page' request_timestamp ->
  page = page'.
Proof.
  unfold page_callback. intros H.
  apply app_inv_head, app_inv_tail in H. now apply str_of_Z_inj.
Qed.

Lemma page_callback_head (page : Z) (request_timestamp : str) :
  hd 0%N (page_callback page request_timestamp) = 112%N.
Proof. reflexivity. Qed.

(** X16: on a keyboard made for a page that exists, with [per_page > 0],
    every button whose callback data names a page names the page before or
    the page after the current one, and that page shows at least one
    result. *)
Theorem keyboard_page_buttons (results : list SearchResult)
    (request_timestamp : str) (current_page per_page : Z) (current_format : str)
    (rows : list (list button)) (b : button) (page : Z) :
  (0 < per_page)%Z ->
  (1 <= current_page <= (len results + per_page - 1) / per_page)%Z ->
  create_search_results_keyboard request_timestamp (len results) current_page
    per_page current_format = Some rows ->
  In b (concat rows) ->
  callback_data b = page_callback page request_timestamp ->
  (page = current_page - 1 \/ page = current_page + 1)%Z
  /\ page_of results per_page page <> [].
Proof.
  intros Hpp Hcur Hkb Hin Hcb.
  pose proof (page_in_range_shown results per_page page Hpp) as Hshown.
  unfold create_search_results_keyboard, search_results_buttons in Hkb.
  remember ((len results + per_page - 1) / per_page)%Z as total_pages.
  clear Heqtotal_pages.
  replace (per_page =? 0)%Z with false in Hkb
    by (symmetry; apply Z.eqb_neq; lia).
  injection Hkb as <-. rewrite concat_adjust, app_nil_l in Hin.
  pose proof (page_callback_head page request_timestamp) as Hhead.
  rewrite <- Hcb in Hhead.
  apply in_app_or in Hin as [Hin | Hin].
  - destruct (total_pages >? 1)%Z; [|contradiction].
    apply in_app_or in Hin as [Hin | [<- | Hin]].
    + destruct (current_page >? 1)%Z eqn:E; [|contradiction].
      destruct Hin as [<- | []]. cbn [callback_data] in Hcb.
      apply page_callback_inj in Hcb. subst page.
      split; [now left | apply Hshown; lia].
    + discriminate Hhead.
    + destruct (current_page <? total_pages)%Z eqn:E; [|contradiction].
      destruct Hin as [<- | []]. cbn [callback_data] in Hcb.
      apply page_callback_inj in Hcb. subst page.
      split; [now right | apply Hshown; lia].
  - exfalso. apply in_app_or in Hin as [Hin | Hin].
    + apply in_app_or in Hin as [Hin | Hin].
      * destruct (negb (str_eqb current_format (u "table"))); [|contradiction].
        destruct Hin as [<- | []]. discriminate Hhead.
      * destruct (negb (str_eqb current_format (u "text"))); [|contradiction].
        destruct Hin as [<- | []]. discriminate Hhead.
    + destruct Hin as [<- | [<- | []]]; discriminate Hhead.
Qed.

Lemma replace_newline_free (s : str) :
  ~ In 10%N (replace_char 10%N (u " ") s).
Proof.
  unfold replace_char. rewrite in_flat_map. intros [x [_ Hx]].
  destruct (x =? 10)%N eqn:E.
  - destruct Hx as [Hx | []]. discriminate Hx.
  - destruct Hx as [Hx | []]. subst x. now rewrite N.eqb_refl in E.
Qed.

Lemma table_cell_bounds (limit : nat) (s : str) :
  3 <= limit ->
  length (table_cell limit s) <= limit /\ ~ In 10%N (table_cell limit s).
Proof.
  intros Hlimit. unfold table_cell.
  pose proof (replace_newline_free (replace_char 124%N (u "\|") s)) as Hnl.
  remember (replace_char 10%N (u " ") (replace_char 124%N (u "\|") s)) as cell.
  destruct (limit <? length cell) eqn:E.
  - apply Nat.ltb_lt in E. split.
    + rewrite length_app, length_take. change (length (u "...")) with 3. lia.
    + intros Hin. apply in_app_or in Hin as [Hin | Hin].
      * apply Hnl. rewrite <- (take_drop (limit - 3) cell).
        apply in_or_app. now left.
      * vm_compute in Hin. intuition discriminate.
  - apply Nat.ltb_ge in E. split; [exact E | exact Hnl].
Qed.

(** X17: a row of the table is made of the number, the channel cell, the
    date, the snippet cell and the link; the channel cell has at most 20
    characters and the snippet cell at most 50, and neither holds a line
    break. *)
Theorem table_row_cells (i : Z) (result : SearchResult) :
  table_row i result
  = u "| " ++ str_of_Z i ++ u " | " ++ table_cell 20 (channel result)
    ++ u " | " ++ date result ++ u " | " ++ table_cell 50 (snippet result)
    ++ u " | " ++ link result ++ u " |" ++ nl
  /\ length (table_cell 20 (channel result)) <= 20
  /\ length (table_cell 50 (snippet result)) <= 50
  /\ ~ In 10%N (table_cell 20 (channel result))
  /\ ~ In 10%N (table_cell 50 (snippet result)).
Proof.
  pose proof (table_cell_bounds 20 (channel result) ltac:(lia)) as [H1 H2].
  pose proof (table_cell_bounds 50 (snippet result) ltac:(lia)) as [H3 H4].
  split; [|tauto].
  unfold table_row, table_cell.
  destruct (str_eqb (link result) dash) eqn:E; [|reflexivity].
  apply str_eqb_eq in E. now rewrite E.
Qed.

(** *** Input lists *)

Lemma in_join (x : char) (sep : str) (l : list str) :
  In x (join sep l) -> In x sep \/ exists piece, In piece l /\ In x piece.
Proof.
  induction l as [|piece l IH]; [intros []|].
  destruct l as [|piece' l]; cbn [join].
  - intros H. right. exists piece. split; [now left | exact H].
  - intros H. apply in_app_or in H as [H | H].
    + right. exists piece. split; [now left | exact H].
    + apply in_app_or in H as [H | H]; [now left|].
      destruct (IH H) as [Hs | [p [Hp Hx]]]; [now left|].
      right. exists p. split; [now right | exact Hx].
Qed.

(** The characters of the pieces are characters of the string. *)
Lemma in_split_from (sep : str) (x : char) (s : str) :
  forall skip cur piece,
    In piece (split_from sep skip cur s) -> In x piece -> In x cur \/ In x s.
Proof.
  induction s as [|c s IH]; intros skip cur piece Hp Hx; cbn [split_from] in Hp.
  - destruct Hp as [<- | []]. now left.
  - destruct skip as [|k].
    + destruct (startswith (c :: s) sep).
      * destruct Hp as [<- | Hp]; [now left|].
        destruct (IH _ _ _ Hp Hx) as [[] | H]. right. now right.
      * destruct (IH _ _ _ Hp Hx) as [H | H].
        -- apply in_app_or in H as [H | [<- | []]]; [now left|].
           right. now left.
        -- right. now right.
    + destruct (IH _ _ _ Hp Hx) as [H | H]; [now left | right; now right].
Qed.

(** Splitting at a character leaves pieces without that character. *)
Lemma split_char_free (c : char) (s : str) :
  forall cur piece,
    ~ In c cur -> In piece (split_from [c] 0 cur s) -> ~ In c piece.
Proof.
  induction s as [|x s IH]; intros cur piece Hcur Hp; cbn [split_from] in Hp.
  - now destruct Hp as [<- | []].
  - cbn [startswith] in Hp. rewrite andb_true_r in Hp.
    destruct (c =? x)%N eqn:E.
    + destruct Hp as [<- | Hp]; [exact Hcur|].
      cbn [length Nat.sub] in Hp. now apply (IH [] piece).
    + apply (IH (cur ++ [x]) piece); [|exact Hp].
      intros H. apply in_app_or in H as [H | [<- | []]]; [auto|].
      now rewrite N.eqb_refl in E.
Qed.

(** X18: every item [normalize_list] returns is non-empty, has no
    whitespace around it, and holds neither a comma nor a line break. *)
Theorem normalize_list_items (payload : str) :
  Forall (fun item => item <> [] /\ strip item = item
                      /\ ~ In 44%N item /\ ~ In 10%N item)
    (normalize_list payload).
Proof.
  unfold normalize_list.
  destruct (negb (nonempty payload) || negb (nonempty (strip payload)));
    [constructor|].
  apply List.Forall_forall. intros item Hin.
  apply filter_In in Hin as [Hin Hne].
  apply in_map_iff in Hin as [piece [<- Hpiece]].
  split; [now destruct (strip piece) | split; [apply strip_idempotent|]].
  unfold str_split in Hpiece. split.
  - intros H. apply in_strip in H.
    exact (split_char_free 44%N _ [] piece (fun F => F) Hpiece H).
  - intros H. apply in_strip in H.
    destruct (in_split_from _ 10%N _ _ _ _ Hpiece H) as [[] | H'].
    unfold str_replace in H'. apply in_join in H' as [H' | [p [Hp Hx]]].
    + vm_compute in H'. intuition discriminate.
    + unfold str_split in Hp.
      exact (split_char_free 10%N _ [] p (fun F => F) Hp Hx).
Qed.

Lemma validate_channels_step_form (validated : list str) (channel : str) :
  validate_channels_step validated channel = validated
  \/ exists rest,
       validate_channels_step validated channel = validated ++ [64%N :: rest].
Proof.
  unfold validate_channels_step.
  destruct (negb (nonempty (strip channel))); [now left|].
  destruct (startswith (strip channel) (u "@")) eqn:E.
  - right. apply startswith_spec in E as [rest ->]. now exists rest.
  - destruct (startswith (strip channel) (u "https://t.me/")).
    + destruct (nonempty _); [right; eauto | now left].
    + destruct (str_contains (strip channel) (u "t.me/")).
      * destruct (1 <? length _); [|now left].
        destruct (nonempty _); [right; eauto | now left].
      * right. eauto.
Qed.

Lemma validate_channels_step_normal (validated : list str) (channel : str) :
  strip channel = channel -> startswith channel (u "@") = true ->
  validate_channels_step validated channel = validated ++ [channel].
Proof.
  intros Hs Hat. unfold validate_channels_step. rewrite Hs, Hat.
  destruct channel; [discriminate Hat | reflexivity].
Qed.

(** X19: [validate_channels] returns at most five channels, each starting
    with [@]; a list of channels that are already of that form, without
    whitespace around them, is returned as it is, cut to its first five. *)
Theorem validate_channels_form (channels : list str) :
  length (validate_channels channels) <= 5
  /\ Forall (fun channel => exists rest, channel = 64%N :: rest)
       (validate_channels channels)
  /\ (Forall (fun channel => strip channel = channel
                             /\ startswith channel (u "@") = true) channels ->
      validate_channels channels = take 5 channels).
Proof.
  unfold validate_channels. destruct channels as [|channel channels].
  { split; [simpl; lia | split; [constructor | reflexivity]]. }
  cbn [nonempty negb]. remember (channel :: channels) as chs. clear Heqchs.
  split; [rewrite length_take; lia | split].
  - apply Forall_take.
    assert (forall validated,
              Forall (fun ch : str => exists rest, ch = 64%N :: rest) validated ->
              Forall (fun ch : str => exists rest, ch = 64%N :: rest)
                (fold_left validate_channels_step chs validated)) as H.
    { induction chs as [|ch chs IH]; intros validated Hv; [exact Hv|].
      cbn [fold_left]. apply IH.
      destruct (validate_channels_step_form validated ch) as [-> | [rest ->]];
        [exact Hv|].
      apply Forall_app. split; [exact Hv|]. constructor; eauto. }
    apply H. constructor.
  - intros Hnormal. f_equal.
    assert (forall validated,
              fold_left validate_channels_step chs validated = validated ++ chs)
      as H.
    { induction Hnormal as [|ch chs [Hs Hat] _ IH]; intros validated.
      - simpl. now rewrite app_nil_r.
      - cbn [fold_left]. rewrite validate_channels_step_normal by assumption.
        rewrite IH. now rewrite <- app_assoc. }
    apply H.
Qed.


(** *** Text handlers *)

Lemma validate_keywords_valid (keywords : list str) :
  length (validate_keywords keywords) <= 10
  /\ Forall (fun kw => 2 <= length kw <= 50) (validate_keywords keywords).
Proof.
  unfold validate_keywords. destruct keywords as [|kw keywords].
  { split; [simpl; lia | constructor]. }
  cbn [nonempty negb]. rewrite validate_loop. cbn [app]. split.
  - rewrite length_take. lia.
  - apply Forall_take, List.Forall_forall. intros x Hin.
    apply in_map_iff in Hin as [y [<- Hin]].
    apply filter_In in Hin as [_ Hlen]. apply Nat.leb_le in Hlen.
    rewrite length_take. lia.
Qed.

Lemma validate_channels_valid (channels : list str) :
  length (validate_channels channels) <= 5
  /\ Forall (fun channel => exists rest, channel = 64%N :: rest)
       (validate_channels channels).
Proof.
  unfold validate_channels. destruct (negb (nonempty channels)).
  { split; [simpl; lia | constructor]. }
  split; [rewrite length_take; lia|]. apply Forall_take.
  assert (forall validated,
            Forall (fun ch : str => exists rest, ch = 64%N :: rest) validated ->
            Forall (fun ch : str => exists rest, ch = 64%N :: rest)
              (fold_left validate_channels_step channels validated)) as H.
  { induction channels as [|ch chs IH]; intros validated Hv; [exact Hv|].
    cbn [fold_left]. apply IH.
    destruct (validate_channels_step_form validated ch) as [-> | [rest ->]];
      [exact Hv|].
    apply Forall_app. split; [exact Hv|]. constructor; eauto. }
  apply H. constructor.
Qed.

Lemma limit_keywords_valid (keywords : list str) :
  length keywords <= 10 -> limit_keywords keywords = ([], keywords).
Proof.
  intros H. unfold limit_keywords.
  replace (10 <? length keywords) with false; [reflexivity|].
  symmetry. now apply Nat.ltb_ge.
Qed.

Lemma limit_channels_valid (channels : list str) :
  length channels <= 5 -> limit_channels channels = ([], channels).
Proof.
  intros H. unfold limit_channels.
  replace (5 <? length channels) with false; [reflexivity|].
  symmetry. now apply Nat.ltb_ge.
Qed.

Lemma nonempty_length {A} (l : list A) : nonempty l = true -> 1 <= length l.
Proof. destruct l; [discriminate | simpl; lia]. Qed.

(** What [handle_text] does, by what validation leaves of the message. *)
Lemma handle_text_cases (text : str) :
  exists keywords channels,
    length keywords <= 10
    /\ Forall (fun kw => 2 <= length kw <= 50) keywords
    /\ length channels <= 5
    /\ Forall (fun channel => exists rest, channel = 64%N :: rest) channels
    /\ handle_text text
       = if negb (nonempty keywords) && negb (nonempty channels) then
           ([InvalidRequest], None, KeepState)
         else if negb (nonempty keywords) then ([KeywordsMissing], None, KeepState)
         else if negb (nonempty channels) then
           if 3 <? length keywords then
             ([ChannelsMissing keywords], None, KeepState)
           else ([AskForChannels keywords], None, AwaitChannels keywords)
         else ([RequestSaved keywords channels], Some (keywords, channels),
               ClearState).
Proof.
  unfold handle_text.
  destruct (fold_left sort_part (split_ws (strip text)) ([], []))
    as [keywords channels].
  destruct (validate_keywords_valid keywords) as [Hk1 Hk2].
  destruct (validate_channels_valid channels) as [Hc1 Hc2].
  exists (validate_keywords keywords), (validate_channels channels).
  repeat (split; [assumption|]).
  rewrite limit_keywords_valid, limit_channels_valid by assumption.
  reflexivity.
Qed.

(** X20: [handle_text] sends exactly one answer and never one of the two
    warnings about too many keywords or channels; a request it saves is
    valid (one to ten keywords of 2 to 50 characters, one to five channels
    starting with [@]), is the one its answer shows, and clears the
    conversation state. *)
Theorem handle_text_saves_valid_requests (text : str) :
  length (fst (fst (handle_text text))) = 1
  /\ (forall given kept,
        ~ In (TooManyKeywords given kept) (fst (fst (handle_text text)))
        /\ ~ In (TooManyChannels given kept) (fst (fst (handle_text text))))
  /\ (forall keywords channels,
        snd (fst (handle_text text)) = Some (keywords, channels) ->
        valid_request keywords channels
        /\ handle_text text
           = ([RequestSaved keywords channels], Some (keywords, channels),
              ClearState)).
Proof.
  destruct (handle_text_cases text)
    as [keywords [channels [Hk1 [Hk2 [Hc1 [Hc2 E]]]]]].
  rewrite E. clear E.
  destruct (nonempty keywords) eqn:Ek, (nonempty channels) eqn:Ec;
    cbn [negb andb]; try destruct (3 <? length keywords); cbn [fst snd];
    (split; [reflexivity|]);
    (split; [intros given kept; split; intros [H | []]; discriminate H|]);
    intros kws chs H; try discriminate H.
  all: injection H as <- <-; (split; [|reflexivity]).
  all: apply nonempty_length in Ek, Ec; unfold valid_request; auto.
Qed.

(** X21: in the step mode, the answer of [handle_text] that asks for the
    channels keeps at most three valid keywords in the conversation state,
    and the request [handle_channels_only] then saves has these keywords
    and is valid. *)
Theorem step_mode_saves_valid_requests (text1 text2 : str)
    (answers : list answer) (kept keywords channels : list str) :
  handle_text text1 = (answers, None, AwaitChannels kept) ->
  snd (fst (handle_channels_only text2 (Some kept))) = Some (keywords, channels) ->
  keywords = kept
  /\ length kept <= 3
  /\ valid_request keywords channels
  /\ handle_channels_only text2 (Some kept)
     = ([RequestSaved keywords channels], Some (keywords, channels), ClearState).
Proof.
  intros H1 H2.
  destruct (handle_text_cases text1) as [kws [chs [Hk1 [Hk2 [_ [_ E]]]]]].
  rewrite H1 in E.
  assert (kept = kws /\ 1 <= length kws <= 3) as [-> Hlen].
  { destruct (nonempty kws) eqn:Ek, (nonempty chs) eqn:Ec;
      cbn [negb andb] in E; try discriminate E.
    destruct (3 <? length kws) eqn:E3; [discriminate E|].
    injection E as _ ->. apply Nat.ltb_ge in E3.
    apply nonempty_length in Ek. auto. }
  unfold handle_channels_only in *.
  destruct (validate_channels_valid (normalize_list text2)) as [Hc1 Hc2].
  destruct (nonempty (validate_channels (normalize_list text2))) eqn:Ec;
    cbn [negb] in *; [|discriminate H2].
  rewrite limit_channels_valid in * by assumption.
  cbn [fst snd default app] in *. injection H2 as <- <-.
  apply nonempty_length in Ec. unfold valid_request.
  destruct Hlen as [Hl1 Hl3]. repeat split; try assumption; try lia.
Qed.

(** *** Worked instances of the further properties *)

Lemma search_results_well_formed_witness :
  let run := demo_search (mkGlobals true (Some (demo_client two_messages true)))
               [u "@demo"] 5 in
  Forall well_formed_result (results_of (fst (fst run))).
Proof.
  intros run.
  assert (run = (Ok (results_of (fst (fst run))), snd (fst run), snd run)) as E
    by (vm_compute; reflexivity).
  apply (search_results_well_formed lower_basic is_word_basic sample_key
           (mkGlobals true (Some (demo_client two_messages true))) 0 1 ∅
           [u "@demo"] [u "Python"] 5 true
           (results_of (fst (fst run))) (snd (fst run)) (snd run)).
  - left. reflexivity.
  - exact E.
Defined.

Lemma unresolved_channel_skipped_witness :
  fst (search_channels lower_basic is_word_basic (demo_client two_messages true)
         [u "python"] 5 50 ([] ++ u "@other" :: [u "@demo"]) [])
  = fst (search_channels lower_basic is_word_basic
           (demo_client two_messages true) [u "python"] 5 50
           ([] ++ [u "@demo"]) []).
Proof.
  apply (unresolved_channel_skipped lower_basic is_word_basic
           (demo_client two_messages true) [u "python"] 5 50 []
           [u "@demo"] (u "@other") []).
  vm_compute. reflexivity.
Defined.

Lemma search_touches_own_key_only_witness :
  snd (fst (demo_search (mkGlobals true (Some (demo_client two_messages true)))
              [u "@demo"] 5)) !! u "other"
  = (∅ : cache_dir) !! u "other".
Proof.
  apply (search_touches_own_key_only lower_basic is_word_basic sample_key
           (mkGlobals true (Some (demo_client two_messages true))) 0 1 ∅
           [u "@demo"] [u "Python"] 5 true (u "other")).
  vm_compute. discriminate.
Defined.

Lemma search_answered_from_cache_witness :
  let first := demo_search (mkGlobals true (Some (demo_client two_messages true)))
                 [u "@demo"] 5 in
  search_channel_messages lower_basic is_word_basic sample_key
    (mkGlobals true (Some unauthorized_client)) 2 3 (snd (fst first))
    [u "@demo"] [u "Python"] 5 false
  = (Ok (results_of (fst (fst first))), snd (fst first), []).
Proof.
  intros first.
  apply (search_answered_from_cache lower_basic is_word_basic sample_key
           (mkGlobals true (Some (demo_client two_messages true)))
           (mkGlobals true (Some unauthorized_client)) 0 1 2 3 ∅
           [u "@demo"] [u "Python"] 5 true
           (results_of (fst (fst first))) (snd (fst first)) (snd first)).
  - reflexivity.
  - reflexivity.
  - left. reflexivity.
  - vm_compute. reflexivity.
  - vm_compute. reflexivity.
  - vm_compute. reflexivity.
  - vm_compute. discriminate.
Defined.

Lemma save_leaves_other_keys_witness :
  let cache := save_cached_results 0 (u "b") [sample_result 1] ∅ in
  save_cached_results 5 (u "a") [sample_result 2] cache !! u "b" = cache !! u "b"
  /\ fst (load_cached_results 10 (u "b")
            (save_cached_results 5 (u "a") [sample_result 2] cache))
     = fst (load_cached_results 10 (u "b") cache).
Proof.
  intros cache.
  apply (save_leaves_other_keys 5 10 (u "a") (u "b") [sample_result 2] cache).
  vm_compute. discriminate.
Defined.


Lemma load_cached_results_misses_witness :
  load_cached_results 10 (u "a") (<[u "a" := Unreadable]> ∅)
  = (None, <[u "a" := Unreadable]> ∅).
Proof.
  apply (proj1 (load_cached_results_misses 10 (u "a")
                  (<[u "a" := Unreadable]> ∅))).
  right. vm_compute. reflexivity.
Defined.

Lemma pages_partition_witness :
  pages_from twelve_results 5 1 3 = twelve_results
  /\ page_of twelve_results 5 3 <> []
  /\ page_of twelve_results 5 4 = [].
Proof.
  pose proof (pages_partition twelve_results 5 ltac:(lia)) as [H1 [H2 H3]].
  split; [exact H1 | split].
  - apply H2. vm_compute. split; discriminate.
  - apply H3. vm_compute. reflexivity.
Defined.

Lemma keyboard_page_buttons_witness :
  (3 = 2 - 1 \/ 3 = 2 + 1)%Z /\ page_of twelve_results 5 3 <> [].
Proof.
  apply (keyboard_page_buttons twelve_results (u "t") 2 5 (u "text")
           (match create_search_results_keyboard (u "t") 12 2 5 (u "text") with
            | Some rows => rows
            | None => []
            end)
           (mkButton (u "➡️ Далее") (page_callback 3 (u "t"))) 3).
  - lia.
  - vm_compute. split; discriminate.
  - vm_compute. reflexivity.
  - vm_compute. right. right. left. reflexivity.
  - reflexivity.
Defined.

Lemma step_mode_saves_valid_requests_witness :
  valid_request [u "python"; u "django"] [u "@python"; u "@x"].
Proof.
  apply (step_mode_saves_valid_requests (u "python django")
           (u "@python, t.me/x")
           [AskForChannels [u "python"; u "django"]]
           [u "python"; u "django"] [u "python"; u "django"]
           [u "@python"; u "@x"]).
  - vm_compute. reflexivity.
  - vm_compute. reflexivity.
Defined.

(** *** Round trip of a displayed list *)

Lemma split_from_char_free (c : char) (w : str) :
  forall cur, ~ In c w -> split_from [c] 0 cur w = [cur ++ w].
Proof.
  induction w as [|x w IH]; intros cur Hw; cbn [split_from].
  - now rewrite app_nil_r.
  - cbn [startswith]. rewrite andb_true_r.
    destruct (c =? x)%N eqn:E.
    + apply N.eqb_eq in E. subst x. exfalso. apply Hw. now left.
    + rewrite IH by (intros H; apply Hw; now right).
      now rewrite <- app_assoc.
Qed.

Lemma split_from_char_sep (c : char) (w rest : str) :
  forall cur,
    ~ In c w ->
    split_from [c] 0 cur (w ++ c :: rest) = (cur ++ w) :: split_from [c] 0 [] rest.
Proof.
  induction w as [|x w IH]; intros cur Hw; cbn [app split_from].
  - cbn [startswith]. rewrite N.eqb_refl. cbn [andb length Nat.sub].
    now rewrite app_nil_r.
  - cbn [startswith]. rewrite andb_true_r.
    destruct (c =? x)%N eqn:E.
    + apply N.eqb_eq in E. subst x. exfalso. apply Hw. now left.
    + rewrite IH by (intros H; apply Hw; now right).
      now rewrite <- app_assoc.
Qed.

Lemma split_join_comma (items : list str) :
  forall x cur,
    Forall (fun item => ~ In 44%N item) (x :: items) ->
    split_from [44%N] 0 cur (join (u ", ") (x :: items))
    = (cur ++ x) :: map (cons 32%N) items.
Proof.
  induction items as [|y items IH]; intros x cur Hfree.
  - cbn [join map]. apply split_from_char_free.
    now apply Forall_cons in Hfree as [H _].
  - apply Forall_cons in Hfree as [Hx Hrest].
    change (join (u ", ") (x :: y :: items))
      with (x ++ 44%N :: 32%N :: join (u ", ") (y :: items)).
    rewrite split_from_char_sep by exact Hx. f_equal.
    change (split_from [44%N] 0 [] (32%N :: join (u ", ") (y :: items)))
      with (split_from [44%N] 0 [32%N] (join (u ", ") (y :: items))).
    now rewrite IH.
Qed.

Lemma stripped_head (x : str) :
  x <> [] -> strip x = x -> exists c t, x = c :: t /\ isspace c = false.
Proof.
  intros Hne Hs. unfold strip in Hs.
  destruct (lstrip_head x) as [E | [c [t [E Hc]]]]; rewrite E in Hs.
  - now subst x.
  - rewrite rstrip_nonspace_head in Hs by exact Hc. eauto.
Qed.

Lemma strip_nonspace_head (c : char) (t : str) :
  isspace c = false -> nonempty (strip (c :: t)) = true.
Proof.
  intros H. unfold strip.
  rewrite lstrip_nonspace, rstrip_nonspace_head by exact H. reflexivity.
Qed.

(** X22: a list of items shown with [', '.join] is read back by
    [normalize_list], when the items are non-empty, have no whitespace
    around them and hold no comma and no line break. *)
Theorem normalize_list_join (items : list str) :
  Forall (fun item => item <> [] /\ strip item = item
                      /\ ~ In 44%N item /\ ~ In 10%N item) items ->
  normalize_list (join (u ", ") items) = items.
Proof.
  intros Hitems. destruct items as [|x items]; [reflexivity|].
  assert (Forall (fun item : str => ~ In 44%N item) (x :: items)) as Hcomma
    by (eapply List.Forall_impl; [|exact Hitems];
        intros a [_ [_ [H _]]]; exact H).
  assert (~ In 10%N (join (u ", ") (x :: items))) as Hnl.
  { intros H. apply in_join in H as [H | [p [Hp Hx]]].
    - vm_compute in H. intuition discriminate.
    - rewrite List.Forall_forall in Hitems. apply Hitems in Hp. tauto. }
  pose proof Hitems as Hall.
  apply Forall_cons in Hitems as [[Hne [Hs _]] Hrest].
  destruct (stripped_head x Hne Hs) as [c [t [-> Hc]]].
  unfold normalize_list.
  assert (exists p, join (u ", ") ((c :: t) :: items) = c :: p) as [p Ep]
    by (destruct items; cbn [join app]; eauto).
  rewrite Ep at 1 2. cbn [nonempty negb orb].
  rewrite strip_nonspace_head by exact Hc. cbn [negb].
  unfold str_replace, str_split.
  change nl with ((10%N : char) :: @nil char).
  rewrite (split_from_char_free 10%N _ [] Hnl).
  change (split_from (u ",") 0 []
            (join (u ",") [[] ++ join (u ", ") ((c :: t) :: items)]))
    with (split_from [44%N] 0 [] (join (u ", ") ((c :: t) :: items))).
  rewrite split_join_comma by exact Hcomma. cbn [app map].
  rewrite Hs. cbn [List.filter nonempty]. f_equal.
  clear -Hrest. induction Hrest as [|y items [Hne [Hs _]] _ IH]; [reflexivity|].
  cbn [map List.filter].
  change (strip (32%N :: y)) with (strip y). rewrite Hs.
  destruct y; [congruence|]. cbn [nonempty]. now rewrite IH.
Qed.

(** *** Reading a channel *)

Section ChannelBudget.

Variable lower : str -> str.
Variable is_word : char -> bool.

Lemma scan_messages_trace (kws : list str) (limit : Z) (lt ct : str)
    (ms : list message) (results : list SearchResult) :
  exists k,
    snd (scan_messages lower is_word kws limit lt ct ms results)
    = map (fun m => NextMessage (id m)) (take k ms).
Proof.
  revert results. induction ms as [|m ms IH]; intros results;
    cbn [scan_messages].
  - now exists 0.
  - destruct (process_message lower is_word kws lt ct m) as [[result|]|ex].
    + destruct (len (results ++ [result]) >=? limit)%Z; [now exists 1|].
      destruct (IH (results ++ [result])) as [k Hk].
      destruct (scan_messages lower is_word kws limit lt ct ms
                  (results ++ [result])) as [rs tr].
      exists (S k). cbn [snd take map] in *. now rewrite Hk.
    + destruct (IH results) as [k Hk].
      destruct (scan_messages lower is_word kws limit lt ct ms results)
        as [rs tr].
      exists (S k). cbn [snd take map] in *. now rewrite Hk.
    + now exists 1.
Qed.

(** X23: from a channel the searcher reads the messages in the order the
    client lists them, from the first one on without a gap, and at most
    [per_channel_limit] of them. *)
Theorem scan_channel_budget (cl : client) (kws : list str)
    (limit per_channel_limit : Z) (channel : str) (e : entity)
    (results : list SearchResult) :
  exists k,
    k <= Z.to_nat per_channel_limit
    /\ snd (scan_channel lower is_word cl kws limit per_channel_limit channel e
              results)
       = IterMessages e per_channel_limit
         :: map (fun m => NextMessage (id m)) (take k (iter_messages cl e)).
Proof.
  unfold scan_channel.
  destruct (scan_messages_trace kws limit (link_template_of e)
              (channel_title_of channel e)
              (take (Z.to_nat per_channel_limit) (iter_messages cl e)) results)
    as [k Hk].
  destruct (scan_messages lower is_word kws limit (link_template_of e)
              (channel_title_of channel e)
              (take (Z.to_nat per_channel_limit) (iter_messages cl e)) results)
    as [rs tr].
  exists (Nat.min k (Z.to_nat per_channel_limit)). split; [lia|].
  cbn [snd] in *. rewrite Hk. now rewrite take_take.
Qed.

End ChannelBudget.

(** *** Splitting into sentences *)

Lemma re_split_keeps_text (s : str) :
  forall skipping after_end cur,
    List.filter (fun c => negb (isspace c))
      (concat (re_split_sentences_from skipping after_end cur s))
    = List.filter (fun c => negb (isspace c)) (cur ++ s).
Proof.
  induction s as [|c s IH]; intros skipping after_end cur;
    cbn [re_split_sentences_from].
  - cbn [concat]. now rewrite !app_nil_r.
  - destruct (isspace c) eqn:E.
    + rewrite !andb_true_r. destruct skipping.
      * rewrite IH, !List.filter_app. cbn [List.filter]. now rewrite E.
      * destruct after_end.
        -- cbn [concat]. rewrite List.filter_app, IH, !List.filter_app.
           cbn [List.filter app]. now rewrite E.
        -- rewrite IH, <- app_assoc. reflexivity.
    + rewrite !andb_false_r. rewrite IH, <- app_assoc. reflexivity.
Qed.

Lemma re_split_nonempty (s : str) :
  forall skipping after_end cur,
    re_split_sentences_from skipping after_end cur s <> [].
Proof.
  induction s as [|c s IH]; intros skipping after_end cur;
    cbn [re_split_sentences_from]; [discriminate|].
  destruct (skipping && isspace c); [apply IH|].
  destruct (after_end && isspace c); [discriminate | apply IH].
Qed.

Lemma re_split_ends (s : str) :
  forall skipping after_end cur,
    (after_end = true ->
     exists q c, cur = q ++ [c] /\ is_sentence_end c = true) ->
    Forall (fun piece => exists q c, piece = q ++ [c]
                                     /\ is_sentence_end c = true)
      (removelast (re_split_sentences_from skipping after_end cur s)).
Proof.
  induction s as [|c s IH]; intros skipping after_end cur Hcur;
    cbn [re_split_sentences_from].
  - constructor.
  - destruct (skipping && isspace c).
    + apply IH. discriminate.
    + destruct (after_end && isspace c) eqn:E.
      * apply andb_true_iff in E as [-> _].
        assert (forall l, l <> [] ->
                  removelast (cur :: l) = cur :: removelast l) as Hrl
          by (intros [|x l] H; [congruence | reflexivity]).
        rewrite Hrl by apply re_split_nonempty.
        constructor; [now apply Hcur | apply IH; discriminate].
      * apply IH. intros H. exists cur, c. now split.
Qed.

(** X24: splitting a text into sentences keeps every character that is
    not whitespace, in order, and every sentence but the last ends with
    one of [.], [!] and [?]. *)
Theorem re_split_sentences_pieces (s : str) :
  List.filter (fun c => negb (isspace c)) (concat (re_split_sentences s))
  = List.filter (fun c => negb (isspace c)) s
  /\ Forall (fun piece => exists q c, piece = q ++ [c]
                                      /\ is_sentence_end c = true)
       (removelast (re_split_sentences s)).
Proof.
  unfold re_split_sentences. split.
  - now rewrite re_split_keeps_text.
  - apply re_split_ends. discriminate.
Qed.

Lemma normalize_list_join_witness :
  normalize_list (join (u ", ") [u "python"; u "django"])
  = [u "python"; u "django"].
Proof.
  apply (normalize_list_join [u "python"; u "django"]).
  repeat constructor; try discriminate; try reflexivity;
    vm_compute; intuition discriminate.
Defined.
